(** * Hirschberg–Sinclair leader election (src/main.py): shallow embedding

    Python ints are [Z]; the ring is a Python list of [Process] objects,
    modelled as a [list Process] indexed by [nat].  A queue reference
    ([left_queue], [right_queue]) is the index of the process owning that
    inbox.  The inboxes themselves ([Process.inbox], a [queue.Queue]) are
    kept beside the processes in the world state, one [list Message] per
    process, since [handle_message] never touches its own inbox. *)

From Stdlib Require Import ZArith Lia.
From stdpp Require Import base list relations.

Open Scope Z_scope.

(** ** Message (lines 20-26) *)

Inductive Direction := LEFT | RIGHT.

Definition dir_eqb (a b : Direction) : bool :=
  match a, b with
  | LEFT, LEFT | RIGHT, RIGHT => true
  | _, _ => false
  end.

Record Message := mkMessage {
  origin_id : Z;
  direction : Direction;
  msg_phase : Z;
  distance : Z;
  returning : bool
}.

(** ** Process (lines 32-51), without its inbox *)

Record Process := mkProcess {
  pid : Z;
  phase : Z;
  active : bool;
  left_queue : option nat;
  right_queue : option nat;
  confirm_left : bool;
  confirm_right : bool;
  running : bool;
  message_counter : Z;
  ring_size : Z
}.

(** [Process(pid, ring_size, stop_event)]: the constructor. *)
Definition new_process (p : Z) (n : Z) : Process :=
  mkProcess p 0 true None None false false true 0 n.

Definition set_phase (st : Process) (k : Z) : Process :=
  mkProcess st.(pid) k st.(active) st.(left_queue) st.(right_queue)
    st.(confirm_left) st.(confirm_right) st.(running) st.(message_counter)
    st.(ring_size).
Definition set_confirm_left (st : Process) (b : bool) : Process :=
  mkProcess st.(pid) st.(phase) st.(active) st.(left_queue) st.(right_queue)
    b st.(confirm_right) st.(running) st.(message_counter) st.(ring_size).
Definition set_confirm_right (st : Process) (b : bool) : Process :=
  mkProcess st.(pid) st.(phase) st.(active) st.(left_queue) st.(right_queue)
    st.(confirm_left) b st.(running) st.(message_counter) st.(ring_size).
Definition set_running (st : Process) (b : bool) : Process :=
  mkProcess st.(pid) st.(phase) st.(active) st.(left_queue) st.(right_queue)
    st.(confirm_left) st.(confirm_right) b st.(message_counter) st.(ring_size).
Definition set_counter (st : Process) (c : Z) : Process :=
  mkProcess st.(pid) st.(phase) st.(active) st.(left_queue) st.(right_queue)
    st.(confirm_left) st.(confirm_right) st.(running) c st.(ring_size).
Definition set_queues (st : Process) (l r : option nat) : Process :=
  mkProcess st.(pid) st.(phase) st.(active) l r
    st.(confirm_left) st.(confirm_right) st.(running) st.(message_counter)
    st.(ring_size).

(** Which of the two queue attributes a [send] goes through. *)
Inductive Chan := LeftQ | RightQ.

(** The effect of a method call: the process after it, the value of the
    shared [stop_event], and the [q.put] calls made, in order. *)
Record Effect := mkEffect {
  e_self : Process;
  e_stop : bool;
  e_sent : list (Chan * Message)
}.

(** [send(q, msg)] (lines 53-59): put the message, bump the counter. *)
Definition send (q : Chan) (msg : Message) (e : Effect) : Effect :=
  mkEffect (set_counter e.(e_self) (e.(e_self).(message_counter) + 1))
    e.(e_stop) (e.(e_sent) ++ [(q, msg)]).

(** [start_phase()] (lines 61-72). *)
Definition start_phase (e : Effect) : Effect :=
  let st := e.(e_self) in
  let dist := 2 ^ st.(phase) in
  send RightQ (mkMessage st.(pid) RIGHT st.(phase) dist false)
    (send LeftQ (mkMessage st.(pid) LEFT st.(phase) dist false) e).

(** Lines 113-116 of [handle_message]: an outbound message loses one hop
    and turns into an echo when none is left. *)
Definition decrement (msg : Message) : Message :=
  if negb msg.(returning) then
    let d := msg.(distance) - 1 in
    mkMessage msg.(origin_id) msg.(direction) msg.(msg_phase) d
      (if d =? 0 then true else msg.(returning))
  else msg.

(** Lines 118-122: the queue the message leaves by. *)
Definition choose_direction (msg : Message) : Chan :=
  match msg.(direction) with
  | LEFT => if msg.(returning) then RightQ else LeftQ
  | RIGHT => if msg.(returning) then LeftQ else RightQ
  end.

(** Lines 112-124 of [handle_message]: the forward / turn-around rule. *)
Definition forward_rule (e : Effect) (msg : Message) : Effect :=
  let msg1 := decrement msg in
  send (choose_direction msg1) msg1 e.

(** [handle_message(msg)] (lines 74-124). *)
Definition handle_message (st : Process) (stop : bool) (msg : Message)
  : Effect :=
  let e := mkEffect st stop [] in
  (* Kill smaller ID *)
  if negb msg.(returning) && (msg.(origin_id) <? st.(pid)) then e
  (* Confirmation returned to origin *)
  else if (msg.(origin_id) =? st.(pid)) && msg.(returning) then
    let st1 :=
      if dir_eqb msg.(direction) LEFT then set_confirm_left st true
      else set_confirm_right st true in
    if st1.(confirm_left) && st1.(confirm_right) then
      let radius := 2 ^ st1.(phase) in
      if st1.(ring_size) <=? radius then
        mkEffect (set_running st1 false) true []
      else
        let st2 := set_confirm_right
                     (set_confirm_left (set_phase st1 (st1.(phase) + 1)) false)
                     false in
        start_phase (mkEffect st2 stop [])
    else mkEffect st1 stop []
  else forward_rule e msg.

(** ** Network setup: [connect_ring(processes)] (lines 143-150).
    Python's [%] is floor modulo, as [Z.modulo]. *)
Definition ring_left (n i : nat) : nat :=
  Z.to_nat ((Z.of_nat i - 1) mod Z.of_nat n).
Definition ring_right (n i : nat) : nat :=
  Z.to_nat ((Z.of_nat i + 1) mod Z.of_nat n).

Definition connect_ring (processes : list Process) : list Process :=
  let n := length processes in
  imap (fun i p => set_queues p (Some (ring_left n i)) (Some (ring_right n i)))
    processes.

(** ** The running system (lines 126-137 and 200-206)

    [procs] are the [Process] objects in ring order, [inboxes] their
    [inbox] queues, [started] whether the thread's [run] has executed its
    initial [start_phase], [stop_event] the shared event. *)
Record World := mkWorld {
  procs : list Process;
  inboxes : list (list Message);
  started : list bool;
  stop_event : bool
}.

(** The queue a [send] on channel [c] of process [st] puts into. *)
Definition target (st : Process) (c : Chan) : option nat :=
  match c with LeftQ => st.(left_queue) | RightQ => st.(right_queue) end.

(** [q.put(x)] on the contents [l] of a [queue.Queue]. *)
Definition put (x : Message) (l : list Message) : list Message := l ++ [x].

(** Perform the [q.put] calls of an effect, in order. *)
Fixpoint deliver (st : Process) (out : list (Chan * Message))
    (ib : list (list Message)) : option (list (list Message)) :=
  match out with
  | [] => Some ib
  | (c, m) :: out' =>
      match target st c with
      | Some t => deliver st out' (alter (put m) t ib)
      | None => None
      end
  end.

(** [main] lines 200-203 for the identifiers [ids]: the processes are
    built and wired, no thread has started yet. *)
Definition init_world (ids : list Z) : World :=
  let n := length ids in
  mkWorld (connect_ring ((fun x => new_process x (Z.of_nat n)) <$> ids))
    (replicate n []) (replicate n false) false.

(** One atomic step of one thread.  [step_start] is the call of
    [start_phase] at the head of [run] (after the random delay).
    [step_recv] is one iteration of the receive loop: the loop test
    [self.running], a [get] and [handle_message].  The message taken is any
    pending one ([l1] arbitrary), which includes the FIFO order of
    [queue.Queue] ([l1 = []]) under every interleaving of the threads'
    [put]s.  The test of [stop_event] is not required: it precedes a
    blocking [get] of up to half a second, during which the event may be
    set, so a message can still be handled after it. *)
Inductive step : World -> World -> Prop :=
| step_start w i p ib' :
    procs w !! i = Some p ->
    started w !! i = Some false ->
    deliver (e_self (start_phase (mkEffect p (stop_event w) [])))
      (e_sent (start_phase (mkEffect p (stop_event w) []))) (inboxes w)
      = Some ib' ->
    step w (mkWorld
      (<[i := e_self (start_phase (mkEffect p (stop_event w) []))]> (procs w))
      ib' (<[i := true]> (started w))
      (e_stop (start_phase (mkEffect p (stop_event w) []))))
| step_recv w i p l1 m l2 ib' :
    procs w !! i = Some p ->
    started w !! i = Some true ->
    running p = true ->
    inboxes w !! i = Some (l1 ++ m :: l2) ->
    deliver (e_self (handle_message p (stop_event w) m))
      (e_sent (handle_message p (stop_event w) m))
      (<[i := l1 ++ l2]> (inboxes w)) = Some ib' ->
    step w (mkWorld
      (<[i := e_self (handle_message p (stop_event w) m)]> (procs w))
      ib' (started w) (e_stop (handle_message p (stop_event w) m))).

Definition reachable (ids : list Z) (w : World) : Prop :=
  rtc step (init_world ids) w.

(** ** A deterministic scheduler, to run concrete elections *)

Inductive Action := Start (i : nat) | Recv (i : nat).

Definition exec_action (w : World) (a : Action) : option World :=
  match a with
  | Start i =>
      match procs w !! i, started w !! i with
      | Some p, Some false =>
          let e := start_phase (mkEffect p (stop_event w) []) in
          match deliver e.(e_self) e.(e_sent) (inboxes w) with
          | Some ib' =>
              Some (mkWorld (<[i := e.(e_self)]> (procs w)) ib'
                      (<[i := true]> (started w)) e.(e_stop))
          | None => None
          end
      | _, _ => None
      end
  | Recv i =>
      match procs w !! i, started w !! i, inboxes w !! i with
      | Some p, Some true, Some (m :: rest) =>
          if running p then
            let e := handle_message p (stop_event w) m in
            match deliver e.(e_self) e.(e_sent) (<[i := rest]> (inboxes w)) with
            | Some ib' =>
                Some (mkWorld (<[i := e.(e_self)]> (procs w)) ib'
                        (started w) e.(e_stop))
            | None => None
            end
          else None
      | _, _, _ => None
      end
  end.

Fixpoint exec (w : World) (sched : list Action) : option World :=
  match sched with
  | [] => Some w
  | a :: s => match exec_action w a with
              | Some w' => exec w' s
              | None => None
              end
  end.

Definition sched_5_1 : list Action :=
  [Start 0; Start 1; Recv 0; Recv 0; Recv 1; Recv 1; Recv 0; Recv 0;
   Recv 1; Recv 1; Recv 0; Recv 0; Recv 1; Recv 1; Recv 0; Recv 0].


(** The world after [sched_5_1] from [main]'s setup for the ring [5; 1]. *)
Definition final_5_1 : World :=
  match exec (init_world [5; 1]) sched_5_1 with
  | Some w => w
  | None => init_world [5; 1]
  end.

(** A driver for concrete runs: every thread makes its initial
    [start_phase], then the first process with a pending message and a set
    [running] flag handles its oldest message, as long as there is one. *)
Definition ready (w : World) (i : nat) : bool :=
  match procs w !! i, started w !! i, inboxes w !! i with
  | Some p, Some true, Some (_ :: _) => running p
  | _, _, _ => false
  end.

Fixpoint drive (w : World) (fuel : nat) : list Action :=
  match fuel with
  | O => []
  | S f =>
      match List.find (ready w) (seq 0 (length (procs w))) with
      | Some i =>
          match exec_action w (Recv i) with
          | Some w' => Recv i :: drive w' f
          | None => []
          end
      | None => []
      end
  end.

Definition run_sched (ids : list Z) (fuel : nat) : list Action :=
  let starts := Start <$> seq 0 (length ids) in
  match exec (init_world ids) starts with
  | Some w => starts ++ drive w fuel
  | None => starts
  end.

(** The spec's five-process scenario, identifiers [3; 7; 1; 9; 2]. *)
Definition ids_5 : list Z := [3; 7; 1; 9; 2].

Definition final_5 : World :=
  match exec (init_world ids_5) (run_sched ids_5 400) with
  | Some w => w
  | None => init_world ids_5
  end.

(** The ring [5; 1] after the first ten actions of [sched_5_1]. *)
Definition mid_5_1 : World :=
  match exec (init_world [5; 1]) (take 10 sched_5_1) with
  | Some w => w
  | None => init_world [5; 1]
  end.

(** [main]'s setup given the repeated identifiers [5; 5], then run. *)
Definition final_dup : World :=
  match exec (init_world [5; 5]) (run_sched [5; 5] 100) with
  | Some w => w
  | None => init_world [5; 5]
  end.

(** A scheduler that may take any pending message of an inbox, the
    [k]-th one, as [step_recv] allows. *)
Inductive Pick := PStart (i : nat) | PRecv (i k : nat).

Definition exec_pick (w : World) (a : Pick) : option World :=
  match a with
  | PStart i => exec_action w (Start i)
  | PRecv i k =>
      match procs w !! i, started w !! i, inboxes w !! i with
      | Some p, Some true, Some l =>
          match l !! k with
          | Some m =>
              if running p then
                let e := handle_message p (stop_event w) m in
                match deliver e.(e_self) e.(e_sent)
                        (<[i := take k l ++ drop (S k) l]> (inboxes w)) with
                | Some ib' =>
                    Some (mkWorld (<[i := e.(e_self)]> (procs w)) ib'
                            (started w) e.(e_stop))
                | None => None
                end
              else None
          | None => None
          end
      | _, _, _ => None
      end
  end.

Fixpoint exec_picks (w : World) (sched : list Pick) : option World :=
  match sched with
  | [] => Some w
  | a :: s => match exec_pick w a with
              | Some w' => exec_picks w' s
              | None => None
              end
  end.

(** A run on the ring [5; 1; 2] where process 2 leaves its own echo in
    its inbox until the leader has stopped, and the step that handles it
    afterwards. *)
Definition sched_late : list Pick :=
  [PStart 0; PStart 1; PStart 2; PRecv 0 0; PRecv 0 0; PRecv 1 0; PRecv 0 0;
   PRecv 1 0; PRecv 2 0; PRecv 0 0; PRecv 1 0; PRecv 2 0; PRecv 2 1;
   PRecv 1 0; PRecv 2 1; PRecv 1 0; PRecv 0 0; PRecv 2 1; PRecv 0 0;
   PRecv 1 0; PRecv 2 1; PRecv 1 0; PRecv 0 0; PRecv 2 1; PRecv 0 0;
   PRecv 1 0; PRecv 0 0; PRecv 2 1; PRecv 0 0].

Definition late_world : World :=
  match exec_picks (init_world [5; 1; 2]) sched_late with
  | Some w => w
  | None => init_world [5; 1; 2]
  end.

Definition after_late : World :=
  match exec_pick late_world (PRecv 2 0) with
  | Some w => w
  | None => late_world
  end.

(** Several calls of [handle_message] in a row, on one process. *)
Fixpoint handle_seq (st : Process) (stop : bool) (ms : list Message)
  : Process * bool :=
  match ms with
  | [] => (st, stop)
  | m :: ms' =>
      let e := handle_message st stop m in
      handle_seq (e_self e) (e_stop e) ms'
  end.

(** [main] lines 160-166: the loop reading N ends exactly on [N >= 2]. *)
Definition accept_n (n : Z) : bool := negb (n <? 2).

(** [main] lines 183-194: one manually entered identifier; a non-positive
    or repeated one is refused and the prompt repeated. *)
Definition add_id (ids : list Z) (x : Z) : list Z :=
  if x <=? 0 then ids
  else if existsb (Z.eqb x) ids then ids
  else ids ++ [x].

(** [main] lines 181-194: the manual entry loop [while len(ids) < N],
    fed the successive answers ([None] for a line [int] refuses, which is
    skipped). *)
Fixpoint read_ids (n : nat) (ids : list Z) (inputs : list (option Z))
  : list Z :=
  match inputs with
  | [] => ids
  | x :: rest =>
      if (length ids <? n)%nat then
        read_ids n (match x with Some v => add_id ids v | None => ids end) rest
      else ids
  end.

(** [main] line 219: [sum(p.message_counter for p in processes)]. *)
Definition total_messages (ps : list Process) : Z :=
  foldr (fun p acc => message_counter p + acc) 0 ps.

(** The number of messages waiting in the inboxes. *)
Definition pending (ib : list (list Message)) : nat :=
  foldr (fun l acc => (length l + acc)%nat) 0%nat ib.


(** ** Auxiliary views of [handle_message] *)

Definition flag (p : Process) (d : Direction) : bool :=
  match d with LEFT => confirm_left p | RIGHT => confirm_right p end.

Definition confirmed (st : Process) (m : Message) : Process :=
  if dir_eqb (direction m) LEFT then set_confirm_left st true
  else set_confirm_right st true.

Definition next_phase (st : Process) : Process :=
  set_confirm_right (set_confirm_left (set_phase st (phase st + 1)) false) false.

(** * Ring geometry and the election invariant *)

Section Election.

Variable ids : list Z.
Hypothesis ids_nodup : NoDup ids.
Hypothesis ids_ring : (2 <= length ids)%nat.

Local Abbreviation N := (length ids).

(** The neighbour a message of direction [d] travels to while outbound. *)
Definition nbr (d : Direction) (i : nat) : nat :=
  match d with LEFT => ring_left N i | RIGHT => ring_right N i end.

(** [walk d q j]: the process [j] hops from [q] in direction [d]. *)
Fixpoint walk (d : Direction) (q : nat) (j : nat) : nat :=
  match j with
  | O => q
  | S j' => nbr d (walk d q j')
  end.

(** Every process on the first [h] hops of [q]'s probe in direction [d]
    has an identifier not above [q]'s. *)
Definition good (q : nat) (d : Direction) (h : Z) : Prop :=
  forall (j : nat) x y, (1 <= j)%nat -> Z.of_nat j <= h ->
    ids !! walk d q j = Some x -> ids !! q = Some y -> x <= y.

(** ** Counting the messages of one probe *)

Definition is_of (o : Z) (d : Direction) (m : Message) : nat :=
  if (origin_id m =? o) && dir_eqb (direction m) d then 1 else 0.

Fixpoint cnt1 (o : Z) (d : Direction) (l : list Message) : nat :=
  match l with
  | [] => 0
  | m :: l' => is_of o d m + cnt1 o d l'
  end.

Fixpoint cnt (o : Z) (d : Direction) (ib : list (list Message)) : nat :=
  match ib with
  | [] => 0
  | l :: ib' => cnt1 o d l + cnt o d ib'
  end.

(** ** The invariant *)

(** Where a pending message of the probe of process [q] is, and what it
    has seen: an echo comes from a probe that went its full radius unkilled;
    an outbound probe is [2^k - distance + 1] hops from [q], all earlier
    hops not above [q]. *)
Definition msg_ok (q r : nat) (m : Message) : Prop :=
  if returning m then
    distance m = 0 /\ good q (direction m) (2 ^ msg_phase m)
  else
    1 <= distance m <= 2 ^ msg_phase m /\
    r = walk (direction m) q (Z.to_nat (2 ^ msg_phase m - distance m + 1)) /\
    good q (direction m) (2 ^ msg_phase m - distance m).

Record proc_inv (w : World) (i : nat) (p : Process) : Prop := {
  pi_pid : ids !! i = Some (pid p);
  pi_size : ring_size p = Z.of_nat N;
  pi_left : left_queue p = Some (ring_left N i);
  pi_right : right_queue p = Some (ring_right N i);
  pi_phase_nonneg : 0 <= phase p;
  pi_phase_prev : 0 < phase p -> 2 ^ (phase p - 1) < Z.of_nat N;
  pi_term : running p = false ->
    confirm_left p = true /\ confirm_right p = true /\
    Z.of_nat N <= 2 ^ phase p;
  pi_flag_good : forall d, flag p d = true -> good i d (2 ^ phase p);
  pi_count : forall d,
    (cnt (pid p) d (inboxes w) + (if flag p d then 1 else 0) <= 1)%nat;
  pi_unstarted : started w !! i = Some false ->
    phase p = 0 /\ confirm_left p = false /\ confirm_right p = false /\
    running p = true /\ forall d, cnt (pid p) d (inboxes w) = 0%nat
}.

Record inv (w : World) : Prop := {
  inv_len_procs : length (procs w) = N;
  inv_len_inboxes : length (inboxes w) = N;
  inv_len_started : length (started w) = N;
  inv_procs : forall i p, procs w !! i = Some p -> proc_inv w i p;
  inv_msgs : forall r l m, inboxes w !! r = Some l -> m ∈ l ->
    exists q pq, procs w !! q = Some pq /\ pid pq = origin_id m /\
      msg_phase m = phase pq /\ msg_ok q r m;
  inv_stop : stop_event w = true ->
    exists i p, procs w !! i = Some p /\ running p = false
}.

(** ** The branches of [handle_message] *)

Lemma handle_kill st s m : returning m = false -> origin_id m < pid st ->
  handle_message st s m = mkEffect st s [].
Proof.
  intros Hr Ho. unfold handle_message. rewrite Hr.
  apply Z.ltb_lt in Ho. rewrite Ho. reflexivity.
Qed.

Lemma handle_forward st s m :
  (returning m = true \/ pid st <= origin_id m) ->
  ~ (origin_id m = pid st /\ returning m = true) ->
  handle_message st s m = forward_rule (mkEffect st s []) m.
Proof.
  intros H1 H2. unfold handle_message.
  assert (Hk : negb (returning m) && (origin_id m <? pid st) = false).
  { destruct H1 as [->|H]; [reflexivity|].
    apply andb_false_iff. right. apply Z.ltb_ge. exact H. }
  rewrite Hk.
  assert (Hc : (origin_id m =? pid st) && returning m = false).
  { apply not_true_iff_false. intros Hc.
    apply andb_true_iff in Hc as [Hc1 Hc2]. apply Z.eqb_eq in Hc1. tauto. }
  rewrite Hc. reflexivity.
Qed.

Lemma handle_confirm_wait st s m :
  origin_id m = pid st -> returning m = true ->
  confirm_left (confirmed st m) && confirm_right (confirmed st m) = false ->
  handle_message st s m = mkEffect (confirmed st m) s [].
Proof.
  intros Ho Hr Hb. unfold handle_message, confirmed in *.
  rewrite Hr, Ho, Z.ltb_irrefl, Z.eqb_refl. simpl. rewrite Hb. reflexivity.
Qed.

Lemma handle_confirm_leader st s m :
  origin_id m = pid st -> returning m = true ->
  confirm_left (confirmed st m) && confirm_right (confirmed st m) = true ->
  ring_size st <= 2 ^ phase st ->
  handle_message st s m = mkEffect (set_running (confirmed st m) false) true [].
Proof.
  intros Ho Hr Hb Hs. unfold handle_message, confirmed in *.
  rewrite Hr, Ho, Z.ltb_irrefl, Z.eqb_refl. simpl. rewrite Hb.
  destruct (dir_eqb (direction m) LEFT); simpl;
    apply Z.leb_le in Hs; rewrite Hs; reflexivity.
Qed.

Lemma handle_confirm_advance st s m :
  origin_id m = pid st -> returning m = true ->
  confirm_left (confirmed st m) && confirm_right (confirmed st m) = true ->
  2 ^ phase st < ring_size st ->
  handle_message st s m =
    start_phase (mkEffect (next_phase (confirmed st m)) s []).
Proof.
  intros Ho Hr Hb Hs. unfold handle_message, confirmed, next_phase in *.
  rewrite Hr, Ho, Z.ltb_irrefl, Z.eqb_refl. simpl. rewrite Hb.
  apply Z.leb_gt in Hs.
  destruct (dir_eqb (direction m) LEFT); simpl; rewrite Hs; reflexivity.
Qed.

Lemma confirmed_fields st m :
  pid (confirmed st m) = pid st /\ phase (confirmed st m) = phase st /\
  left_queue (confirmed st m) = left_queue st /\
  right_queue (confirmed st m) = right_queue st /\
  ring_size (confirmed st m) = ring_size st /\
  running (confirmed st m) = running st.
Proof. unfold confirmed. destruct (dir_eqb (direction m) LEFT); repeat split. Qed.

Lemma confirmed_flag st m d :
  flag (confirmed st m) d = if dir_eqb d (direction m) then true else flag st d.
Proof. unfold confirmed. destruct (direction m), d; reflexivity. Qed.


(** ** Ring geometry *)

Lemma N_pos : 0 < Z.of_nat N.
Proof. lia. Qed.

Lemma walk_left_mod q j : (q < N)%nat ->
  Z.of_nat (walk LEFT q j) = (Z.of_nat q - Z.of_nat j) mod Z.of_nat N.
Proof.
  intros Hq. pose proof N_pos. induction j as [|j IH]; simpl.
  - rewrite Z.sub_0_r, Z.mod_small; lia.
  - unfold ring_left. rewrite IH.
    rewrite Z2Nat.id by (apply Z.mod_pos_bound; lia).
    rewrite Zminus_mod_idemp_l. f_equal. lia.
Qed.

Lemma walk_right_mod q j : (q < N)%nat ->
  Z.of_nat (walk RIGHT q j) = (Z.of_nat q + Z.of_nat j) mod Z.of_nat N.
Proof.
  intros Hq. pose proof N_pos. induction j as [|j IH]; simpl.
  - rewrite Z.add_0_r, Z.mod_small; lia.
  - unfold ring_right. rewrite IH.
    rewrite Z2Nat.id by (apply Z.mod_pos_bound; lia).
    rewrite Z.add_mod_idemp_l by lia. f_equal. lia.
Qed.

Lemma walk_lt d q j : (q < N)%nat -> (walk d q j < N)%nat.
Proof.
  intros Hq. pose proof N_pos.
  destruct d.
  - pose proof (walk_left_mod q j Hq).
    pose proof (Z.mod_pos_bound (Z.of_nat q - Z.of_nat j) (Z.of_nat N)).
    lia.
  - pose proof (walk_right_mod q j Hq).
    pose proof (Z.mod_pos_bound (Z.of_nat q + Z.of_nat j) (Z.of_nat N)).
    lia.
Qed.

Lemma nbr_lt d i : (i < N)%nat -> (nbr d i < N)%nat.
Proof. intros H. apply (walk_lt d i 1 H). Qed.

(** Going [1..N] hops in one direction visits every process. *)
Lemma walk_cover d q r : (q < N)%nat -> (r < N)%nat ->
  exists j, (1 <= j <= N)%nat /\ walk d q j = r.
Proof.
  intros Hq Hr. pose proof N_pos. destruct d.
  - destruct (Nat.lt_ge_cases r q) as [Hlt|Hge].
    + exists (q - r)%nat. split; [lia|].
      apply Nat2Z.inj. rewrite walk_left_mod by lia.
      symmetry. apply (Z.mod_unique _ _ 0); lia.
    + exists (q + N - r)%nat. split; [lia|].
      apply Nat2Z.inj. rewrite walk_left_mod by lia.
      symmetry. apply (Z.mod_unique _ _ (-1)); lia.
  - destruct (Nat.lt_ge_cases q r) as [Hlt|Hge].
    + exists (r - q)%nat. split; [lia|].
      apply Nat2Z.inj. rewrite walk_right_mod by lia.
      symmetry. apply (Z.mod_unique _ _ 0); lia.
    + exists (r + N - q)%nat. split; [lia|].
      apply Nat2Z.inj. rewrite walk_right_mod by lia.
      symmetry. apply (Z.mod_unique _ _ 1); lia.
Qed.

(** A probe that went at least once round the ring unkilled belongs to
    the maximum. *)
Lemma good_cover q d h y : (q < N)%nat -> Z.of_nat N <= h ->
  ids !! q = Some y -> good q d h -> forall x, x ∈ ids -> x <= y.
Proof.
  intros Hq Hh Hy Hg x Hx.
  apply list_elem_of_lookup in Hx as [r Hr].
  pose proof (lookup_lt_Some _ _ _ Hr) as Hrl.
  destruct (walk_cover d q r Hq Hrl) as (j & Hj & Hw).
  apply (Hg j x y); [lia | lia | rewrite Hw; exact Hr | exact Hy].
Qed.

Lemma cnt1_app o d l1 l2 : cnt1 o d (l1 ++ l2) = (cnt1 o d l1 + cnt1 o d l2)%nat.
Proof. induction l1; simpl; lia. Qed.

Lemma cnt_insert o d ib i l l' : ib !! i = Some l ->
  (cnt o d (<[i := l']> ib) + cnt1 o d l = cnt o d ib + cnt1 o d l')%nat.
Proof.
  revert i. induction ib as [|l0 ib IH]; intros [|i] H; simpl in *;
    try discriminate.
  - injection H as ->. lia.
  - specialize (IH i H). lia.
Qed.

Lemma cnt_alter o d ib i l f : ib !! i = Some l ->
  (cnt o d (alter f i ib) + cnt1 o d l = cnt o d ib + cnt1 o d (f l))%nat.
Proof.
  revert i. induction ib as [|l0 ib IH]; intros [|i] H; cbn in *;
    try discriminate.
  - injection H as ->. lia.
  - specialize (IH i H). lia.
Qed.

Lemma cnt_zero o d ib r l m : cnt o d ib = 0%nat -> ib !! r = Some l ->
  m ∈ l -> origin_id m = o -> direction m <> d.
Proof.
  intros Hc Hr Hm Ho Hd.
  assert (Hl : cnt1 o d l = 0%nat).
  { revert r Hr Hc. induction ib as [|l0 ib IH]; intros [|r] Hr Hc;
      simpl in *; try discriminate.
    - injection Hr as ->. lia.
    - apply (IH r); [exact Hr | lia]. }
  clear Hr Hc. induction l as [|m0 l IHl]; [inversion Hm|].
  simpl in Hl. apply elem_of_cons in Hm as [->|Hm].
  - unfold is_of in Hl. rewrite Ho, Hd, Z.eqb_refl in Hl.
    destruct d; simpl in Hl; lia.
  - apply IHl; [exact Hm | lia].
Qed.


Lemma cnt_replicate o d n : cnt o d (replicate n []) = 0%nat.
Proof. induction n; simpl; auto. Qed.

Lemma inv_init : inv (init_world ids).
Proof.
  unfold init_world, connect_ring.
  constructor; simpl.
  - rewrite length_imap, length_fmap. reflexivity.
  - apply length_replicate.
  - apply length_replicate.
  - intros i p Hp. rewrite list_lookup_imap, list_lookup_fmap in Hp.
    destruct (ids !! i) as [x|] eqn:Hx; [|discriminate].
    simpl in Hp. injection Hp as <-. rewrite length_fmap.
    constructor; simpl; auto; try lia.
    + intros [] H; discriminate.
    + intros d. rewrite cnt_replicate. destruct d; simpl; lia.
    + intros _. repeat split; auto. intros d. apply cnt_replicate.
  - intros r l m Hr Hm. apply lookup_replicate in Hr as [-> _].
    inversion Hm.
  - discriminate.
Qed.


(** ** Inbox bookkeeping *)

Lemma elem_put (ib : list (list Message)) (t : nat) (x : Message) (r : nat)
    (l' : list Message) (y : Message) :
  alter (put x) t ib !! r = Some l' -> y ∈ l' ->
  (exists l, ib !! r = Some l /\ y ∈ l) \/ (r = t /\ y = x).
Proof.
  rewrite list_lookup_alter. case_decide as Ht.
  - subst r. destruct (ib !! t) as [l|] eqn:Hl; simpl; [|discriminate].
    intros [= <-] Hy. unfold put in Hy.
    apply elem_of_app in Hy as [Hy|Hy].
    + left. eauto.
    + right. apply list_elem_of_singleton in Hy. auto.
  - intros Hr Hy. left. eauto.
Qed.

Lemma cnt_put o d (ib : list (list Message)) (t : nat) (x : Message) : (t < length ib)%nat ->
  cnt o d (alter (put x) t ib) = (cnt o d ib + is_of o d x)%nat.
Proof.
  intros Ht. destruct (lookup_lt_is_Some_2 ib t Ht) as [l Hl].
  pose proof (cnt_alter o d ib t l (put x) Hl) as H.
  unfold put in *. rewrite cnt1_app in H. cbn [cnt1] in H. lia.
Qed.

Lemma elem_remove (ib : list (list Message)) (i : nat) (l1 : list Message)
    (m : Message) (l2 : list Message) (r : nat) (l' : list Message) (y : Message) :
  ib !! i = Some (l1 ++ m :: l2) ->
  <[i := l1 ++ l2]> ib !! r = Some l' -> y ∈ l' ->
  exists l, ib !! r = Some l /\ y ∈ l.
Proof.
  intros Hi Hr Hy. destruct (decide (r = i)) as [->|Hne].
  - rewrite list_lookup_insert_eq in Hr by (eapply lookup_lt_Some; eauto).
    injection Hr as <-. exists (l1 ++ m :: l2). split; [exact Hi|].
    apply elem_of_app in Hy as [Hy|Hy]; apply elem_of_app;
      [left | right; apply elem_of_cons]; auto.
  - rewrite list_lookup_insert_ne in Hr by congruence. eauto.
Qed.

Lemma cnt_remove o d (ib : list (list Message)) (i : nat) (l1 : list Message)
    (m : Message) (l2 : list Message) :
  ib !! i = Some (l1 ++ m :: l2) ->
  (cnt o d (<[i := l1 ++ l2]> ib) + is_of o d m = cnt o d ib)%nat.
Proof.
  intros Hi. pose proof (cnt_insert o d ib i _ (l1 ++ l2) Hi) as H.
  rewrite !cnt1_app in H. cbn [cnt1] in H. lia.
Qed.

Lemma is_of_1 o d x : is_of o d x = 1%nat -> origin_id x = o /\ direction x = d.
Proof.
  unfold is_of. destruct (origin_id x =? o) eqn:Ho; [|discriminate].
  apply Z.eqb_eq in Ho. destruct (direction x), d; simpl; auto; discriminate.
Qed.

Lemma is_of_same o d x : origin_id x = o -> direction x = d -> is_of o d x = 1%nat.
Proof.
  intros <- <-. unfold is_of. rewrite Z.eqb_refl. destruct (direction x); auto.
Qed.

Lemma is_of_other o d x : origin_id x <> o -> is_of o d x = 0%nat.
Proof.
  intros H. unfold is_of. destruct (origin_id x =? o) eqn:Ho; auto.
  apply Z.eqb_eq in Ho. contradiction.
Qed.

Lemma is_of_le o d x : (is_of o d x <= 1)%nat.
Proof. unfold is_of. destruct (_ && _); lia. Qed.

Lemma proc_inv_mono w w' i p : proc_inv w i p ->
  (forall d, cnt (pid p) d (inboxes w') <= cnt (pid p) d (inboxes w))%nat ->
  started w' !! i = started w !! i -> proc_inv w' i p.
Proof.
  intros [] Hc Hs. constructor; auto.
  - intros d. specialize (Hc d). specialize (pi_count0 d). lia.
  - rewrite Hs. intros H. destruct (pi_unstarted0 H) as (? & ? & ? & ? & Hz).
    repeat split; auto. intros d. specialize (Hc d). specialize (Hz d). lia.
Qed.

Lemma inv_remove w (i : nat) (l1 : list Message) (m : Message)
    (l2 : list Message) : inv w ->
  inboxes w !! i = Some (l1 ++ m :: l2) ->
  inv (mkWorld (procs w) (<[i := l1 ++ l2]> (inboxes w)) (started w)
         (stop_event w)).
Proof.
  intros [] Hi. constructor; simpl; auto.
  - rewrite length_insert. auto.
  - intros j p Hp. apply (proc_inv_mono w); auto.
    intros d. pose proof (cnt_remove (pid p) d _ _ _ _ _ Hi). simpl. lia.
  - intros r l y Hr Hy. destruct (elem_remove _ _ _ _ _ _ _ _ Hi Hr Hy)
      as (l0 & Hl0 & Hy0). eauto.
Qed.


(** ** [start_phase] and the world *)

Lemma start_phase_sent st s :
  e_sent (start_phase (mkEffect st s [])) =
  [(LeftQ, mkMessage (pid st) LEFT (phase st) (2 ^ phase st) false);
   (RightQ, mkMessage (pid st) RIGHT (phase st) (2 ^ phase st) false)].
Proof. reflexivity. Qed.

Lemma start_phase_self st s :
  let st' := e_self (start_phase (mkEffect st s [])) in
  pid st' = pid st /\ phase st' = phase st /\
  left_queue st' = left_queue st /\ right_queue st' = right_queue st /\
  confirm_left st' = confirm_left st /\ confirm_right st' = confirm_right st /\
  running st' = running st /\ ring_size st' = ring_size st /\
  message_counter st' = message_counter st + 2.
Proof. simpl. repeat split. lia. Qed.

Lemma start_phase_stop st s : e_stop (start_phase (mkEffect st s [])) = s.
Proof. reflexivity. Qed.

Lemma lookup_insert_other (ps : list Process) i j x : i <> j ->
  <[i := x]> ps !! j = ps !! j.
Proof. intros H. apply list_lookup_insert_ne. exact H. Qed.

Lemma pid_inj w i j p q : inv w -> procs w !! i = Some p ->
  procs w !! j = Some q -> pid p = pid q -> i = j.
Proof.
  intros Hw Hi Hj He.
  pose proof (pi_pid _ _ _ (inv_procs w Hw i p Hi)) as Hpi.
  pose proof (pi_pid _ _ _ (inv_procs w Hw j q Hj)) as Hqj.
  rewrite He in Hpi. eapply NoDup_lookup; eauto.
Qed.

Lemma two_pow_pos k : 0 <= k -> 1 <= 2 ^ k.
Proof. intros H. pose proof (Z.pow_pos_nonneg 2 k ltac:(lia) H). lia. Qed.

(** A process with no pending probe and cleared flags calls [start_phase]. *)
Lemma inv_launch w i p p1 (st' : list bool) ib' :
  inv w -> procs w !! i = Some p -> running p = true ->
  pid p1 = pid p -> left_queue p1 = left_queue p ->
  right_queue p1 = right_queue p -> ring_size p1 = ring_size p ->
  confirm_left p1 = false -> confirm_right p1 = false -> running p1 = true ->
  0 <= phase p1 -> (0 < phase p1 -> 2 ^ (phase p1 - 1) < Z.of_nat N) ->
  (forall d, cnt (pid p) d (inboxes w) = 0%nat) ->
  length st' = N -> st' !! i = Some true ->
  (forall j, j <> i -> st' !! j = started w !! j) ->
  deliver (e_self (start_phase (mkEffect p1 (stop_event w) [])))
    (e_sent (start_phase (mkEffect p1 (stop_event w) []))) (inboxes w)
    = Some ib' ->
  inv (mkWorld (<[i := e_self (start_phase (mkEffect p1 (stop_event w) []))]>
                  (procs w)) ib' st' (stop_event w)).
Proof.
  intros Hw Hp Hrun Hpid Hlq Hrq Hsz Hcl Hcr Hr1 Hph0 Hph1 Hz Hlen Hsi Hso Hdel.
  pose proof (inv_procs w Hw i p Hp) as Hpi.
  pose proof (start_phase_self p1 (stop_event w)) as
    (Epid & Eph & Elq & Erq & Ecl & Ecr & Erun & Esz & _).
  set (p2 := e_self (start_phase (mkEffect p1 (stop_event w) []))) in *.
  pose proof (lookup_lt_Some _ _ _ Hp) as Hil.
  pose proof (inv_len_procs w Hw) as Hlp.
  pose proof (inv_len_inboxes w Hw) as Hli.
  set (mL := mkMessage (pid p1) LEFT (phase p1) (2 ^ phase p1) false).
  set (mR := mkMessage (pid p1) RIGHT (phase p1) (2 ^ phase p1) false).
  rewrite start_phase_sent in Hdel. cbn [deliver] in Hdel.
  unfold target in Hdel. rewrite Elq, Erq, Hlq, Hrq, (pi_left _ _ _ Hpi),
    (pi_right _ _ _ Hpi) in Hdel.
  injection Hdel as <-. fold mL mR.
  assert (HlL : (ring_left N i < length (inboxes w))%nat)
    by (rewrite Hli; apply (nbr_lt LEFT); lia).
  assert (HlR : (ring_right N i < length (inboxes w))%nat)
    by (rewrite Hli; apply (nbr_lt RIGHT); lia).
  assert (Hcnt : forall o d, cnt o d (alter (put mR) (ring_right N i)
                   (alter (put mL) (ring_left N i) (inboxes w))) =
                 (cnt o d (inboxes w) + is_of o d mL + is_of o d mR)%nat).
  { intros o d. rewrite cnt_put by (rewrite length_alter; lia).
    rewrite cnt_put by lia. lia. }
  constructor; cbn [procs inboxes started stop_event].
  - rewrite length_insert. apply (inv_len_procs w Hw).
  - rewrite !length_alter. exact Hli.
  - exact Hlen.
  - intros j q Hq. rewrite list_lookup_insert in Hq. case_decide as Hji.
    + destruct Hji as [<- _]. injection Hq as <-.
      constructor; cbn [procs inboxes started stop_event].
      * rewrite Epid, Hpid. apply (pi_pid _ _ _ Hpi).
      * rewrite Esz, Hsz. apply (pi_size _ _ _ Hpi).
      * rewrite Elq, Hlq. apply (pi_left _ _ _ Hpi).
      * rewrite Erq, Hrq. apply (pi_right _ _ _ Hpi).
      * rewrite Eph. exact Hph0.
      * rewrite Eph. exact Hph1.
      * rewrite Erun, Hr1. discriminate.
      * intros [] H; simpl in H; congruence.
      * intros d. rewrite Hcnt, Epid, Hpid, Hz.
        unfold flag. rewrite Ecl, Ecr, Hcl, Hcr.
        subst mL mR. destruct d; unfold is_of; cbn; rewrite Hpid, Z.eqb_refl;
          cbn; lia.
      * rewrite Hsi. discriminate.
    + assert (Hji' : j <> i) by (intros ->; apply Hji; split; auto).
      apply (proc_inv_mono w); [apply (inv_procs w Hw j q Hq) | | ].
      * intros d. simpl. rewrite Hcnt.
        assert (pid q <> pid p) by
          (intros He; apply Hji'; eapply pid_inj; eauto).
        rewrite !is_of_other by (subst mL mR; simpl; congruence). lia.
      * simpl. apply Hso. exact Hji'.
  - intros r l y Hr Hy.
    destruct (elem_put _ _ _ _ _ _ Hr Hy) as [(l0 & Hr0 & Hy0)|[-> ->]].
    + destruct (elem_put _ _ _ _ _ _ Hr0 Hy0) as [(l1 & Hrr & Hy1)|[-> ->]].
      * destruct (inv_msgs w Hw r l1 y Hrr Hy1) as (q & pq & Hq & Hqo & Hqp & Hok).
        destruct (decide (q = i)) as [->|Hqi].
        -- rewrite Hp in Hq. injection Hq as <-.
           exfalso. eapply (cnt_zero (pid p) (direction y)); eauto.
        -- exists q, pq. rewrite lookup_insert_other by congruence. auto.
      * exists i, p2. rewrite list_lookup_insert_eq by lia.
        split; [reflexivity|]. split; [rewrite Epid; reflexivity|]. split; [rewrite Eph; reflexivity|].
        subst mL. unfold msg_ok. cbn [returning distance msg_phase direction].
        pose proof (two_pow_pos (phase p1) Hph0).
        repeat split; try lia.
        -- replace (2 ^ phase p1 - 2 ^ phase p1 + 1) with 1 by lia. reflexivity.
        -- intros j x y' Hj1 Hj2. lia.
    + exists i, p2. rewrite list_lookup_insert_eq by lia.
      split; [reflexivity|]. split; [rewrite Epid; reflexivity|]. split; [rewrite Eph; reflexivity|].
      subst mR. unfold msg_ok. cbn [returning distance msg_phase direction].
      pose proof (two_pow_pos (phase p1) Hph0).
      repeat split; try lia.
      * replace (2 ^ phase p1 - 2 ^ phase p1 + 1) with 1 by lia. reflexivity.
      * intros j x y' Hj1 Hj2. lia.
  - intros Hs. destruct (inv_stop w Hw Hs) as (j & q & Hq & Hqr).
    exists j, q. split; auto.
    rewrite lookup_insert_other; auto. intros ->. congruence.
Qed.


(** A process [i] is replaced by [p1] (same identifier and phase) and the
    inboxes by [ib']. *)
Lemma inv_update w i p p1 ib' s :
  inv w -> procs w !! i = Some p -> running p = true ->
  pid p1 = pid p -> phase p1 = phase p ->
  length ib' = N ->
  proc_inv (mkWorld (<[i := p1]> (procs w)) ib' (started w) s) i p1 ->
  (forall j pj d, j <> i -> procs w !! j = Some pj ->
     (cnt (pid pj) d ib' <= cnt (pid pj) d (inboxes w))%nat) ->
  (forall r l y, ib' !! r = Some l -> y ∈ l ->
     (exists l0, inboxes w !! r = Some l0 /\ y ∈ l0) \/
     (exists q pq, procs w !! q = Some pq /\ pid pq = origin_id y /\
        msg_phase y = phase pq /\ msg_ok q r y)) ->
  (s = true -> stop_event w = true \/ running p1 = false) ->
  inv (mkWorld (<[i := p1]> (procs w)) ib' (started w) s).
Proof.
  intros Hw Hp Hrun Hpid Hph Hlen Hpi Hcnt Hmsg Hstop.
  pose proof (lookup_lt_Some _ _ _ Hp) as Hil.
  constructor; cbn [procs inboxes started stop_event].
  - rewrite length_insert. apply (inv_len_procs w Hw).
  - exact Hlen.
  - apply (inv_len_started w Hw).
  - intros j q Hq. destruct (decide (j = i)) as [->|Hji].
    + rewrite list_lookup_insert_eq in Hq by lia. injection Hq as <-. exact Hpi.
    + rewrite lookup_insert_other in Hq by congruence.
      apply (proc_inv_mono w); [apply (inv_procs w Hw j q Hq) | | reflexivity].
      intros d. apply (Hcnt j q d Hji Hq).
  - intros r l y Hr Hy. destruct (Hmsg r l y Hr Hy) as [(l0 & Hl0 & Hy0)|Hnew].
    + destruct (inv_msgs w Hw r l0 y Hl0 Hy0) as (q & pq & Hq & Ho & Hph' & Hok).
      destruct (decide (q = i)) as [->|Hqi].
      * exists i, p1. rewrite list_lookup_insert_eq by lia.
        rewrite Hp in Hq. injection Hq as <-. rewrite Hpid, Hph. auto.
      * exists q, pq. rewrite lookup_insert_other by congruence. auto.
    + destruct Hnew as (q & pq & Hq & Ho & Hph' & Hok).
      destruct (decide (q = i)) as [->|Hqi].
      * exists i, p1. rewrite list_lookup_insert_eq by lia.
        rewrite Hp in Hq. injection Hq as <-. rewrite Hpid, Hph. auto.
      * exists q, pq. rewrite lookup_insert_other by congruence. auto.
  - intros Hs. destruct (Hstop Hs) as [Hs0|Hr1].
    + destruct (inv_stop w Hw Hs0) as (j & q & Hq & Hqr).
      exists j, q. rewrite lookup_insert_other; [auto|]. intros ->. congruence.
    + exists i, p1. rewrite list_lookup_insert_eq by lia. auto.
Qed.

Lemma good_extend q d h x y : good q d h -> 0 <= h ->
  ids !! walk d q (Z.to_nat (h + 1)) = Some x -> ids !! q = Some y ->
  x <= y -> good q d (h + 1).
Proof.
  intros Hg Hh Hx Hy Hxy j x' y' Hj1 Hj2 Hx' Hy'.
  destruct (Z.eq_dec (Z.of_nat j) (h + 1)) as [He|Hne].
  - replace j with (Z.to_nat (h + 1)) in Hx' by lia. congruence.
  - apply (Hg j); auto. lia.
Qed.

Lemma walk_succ d q j : walk d q (S j) = nbr d (walk d q j).
Proof. reflexivity. Qed.


Lemma decrement_origin m : origin_id (decrement m) = origin_id m.
Proof. unfold decrement. destruct (returning m); reflexivity. Qed.

Lemma decrement_direction m : direction (decrement m) = direction m.
Proof. unfold decrement. destruct (returning m); reflexivity. Qed.

Lemma decrement_phase m : msg_phase (decrement m) = msg_phase m.
Proof. unfold decrement. destruct (returning m); reflexivity. Qed.

Lemma is_of_decrement o d m : is_of o d (decrement m) = is_of o d m.
Proof. unfold is_of. rewrite decrement_origin, decrement_direction. reflexivity. Qed.

(** The receive step through the forward rule. *)
Lemma inv_forward w i p l1 m l2 ib' :
  inv w -> procs w !! i = Some p -> started w !! i = Some true ->
  running p = true -> inboxes w !! i = Some (l1 ++ m :: l2) ->
  (returning m = true \/ pid p <= origin_id m) ->
  deliver (e_self (forward_rule (mkEffect p (stop_event w) []) m))
    (e_sent (forward_rule (mkEffect p (stop_event w) []) m))
    (<[i := l1 ++ l2]> (inboxes w)) = Some ib' ->
  inv (mkWorld (<[i := e_self (forward_rule (mkEffect p (stop_event w) []) m)]>
                  (procs w)) ib' (started w)
         (e_stop (forward_rule (mkEffect p (stop_event w) []) m))).
Proof.
  intros Hw Hp Hst Hrun Hib Hnk Hdel.
  pose proof (inv_procs w Hw i p Hp) as Hpi.
  pose proof (lookup_lt_Some _ _ _ Hp) as Hil.
  pose proof (inv_len_procs w Hw) as Hlp.
  pose proof (inv_len_inboxes w Hw) as Hli.
  assert (Hmi : m ∈ l1 ++ m :: l2)
    by (apply elem_of_app; right; apply elem_of_cons; left; reflexivity).
  destruct (inv_msgs w Hw i _ m Hib Hmi) as (q & pq & Hq & Hqo & Hqph & Hok).
  set (m1 := decrement m) in *.
  set (ib0 := <[i := l1 ++ l2]> (inboxes w)) in *.
  set (t := match choose_direction m1 with
            | LeftQ => ring_left N i | RightQ => ring_right N i end).
  assert (Hdel' : ib' = alter (put m1) t ib0).
  { unfold forward_rule, send in Hdel.
    cbn [e_self e_sent app deliver target set_counter left_queue right_queue]
      in Hdel.
    subst t m1. destruct (choose_direction (decrement m));
      cbn [target set_counter left_queue right_queue] in Hdel;
      [rewrite (pi_left _ _ _ Hpi) in Hdel | rewrite (pi_right _ _ _ Hpi) in Hdel];
      injection Hdel as <-; reflexivity. }
  clear Hdel. subst ib'.
  assert (Ht : (t < N)%nat)
    by (subst t; destruct (choose_direction m1); [apply (nbr_lt LEFT) | apply (nbr_lt RIGHT)]; lia).
  assert (Hcnt : forall o d, cnt o d (alter (put m1) t ib0) = cnt o d (inboxes w)).
  { intros o d. rewrite cnt_put by (subst ib0; rewrite length_insert; lia).
    subst m1. rewrite is_of_decrement. apply (cnt_remove o d _ _ _ _ _ Hib). }
  apply inv_update with (p := p); auto.
  - rewrite length_alter. subst ib0. rewrite length_insert. exact Hli.
  - destruct Hpi. constructor; cbn; auto.
    + intros d. rewrite Hcnt. apply pi_count0.
    + rewrite Hst. discriminate.
  - intros j pj d _ _. rewrite Hcnt. lia.
  - intros r l y Hr Hy.
    destruct (elem_put _ _ _ _ _ _ Hr Hy) as [(l0 & Hl0 & Hy0)|[-> ->]].
    + left. apply (elem_remove _ _ _ _ _ _ _ _ Hib Hl0 Hy0).
    + right. exists q, pq. subst m1 t. rewrite decrement_origin, decrement_phase.
      repeat split; auto.
      pose proof (pi_pid _ _ _ (inv_procs w Hw q pq Hq)) as Hqid.
      pose proof (pi_pid _ _ _ Hpi) as Hiid.
      unfold msg_ok in Hok |- *. unfold decrement, choose_direction.
      destruct (returning m) eqn:Hret; cbn [negb].
      * rewrite Hret. exact Hok.
      * destruct Hnk as [Hnk|Hnk]; [discriminate|].
        destruct Hok as (Hd & Hwi & Hg).
        assert (Hg' : good q (direction m) (2 ^ msg_phase m - distance m + 1)).
        { apply (good_extend _ _ _ (pid p) (pid pq)); auto; try lia.
          rewrite <- Hwi. exact Hiid. }
        cbn [returning distance msg_phase direction].
        destruct (Z.eqb_spec (distance m - 1) 0) as [H0|H0].
        -- split; [exact H0|].
           replace (2 ^ msg_phase m) with (2 ^ msg_phase m - distance m + 1)
             by lia. exact Hg'.
        -- repeat split; try lia.
           ++ rewrite Hwi.
              replace (Z.to_nat (2 ^ msg_phase m - (distance m - 1) + 1))
                with (S (Z.to_nat (2 ^ msg_phase m - distance m + 1))) by lia.
              rewrite walk_succ. destruct (direction m); reflexivity.
           ++ replace (2 ^ msg_phase m - (distance m - 1))
                with (2 ^ msg_phase m - distance m + 1) by lia. exact Hg'.
Qed.


Lemma dir_eqb_true a b : dir_eqb a b = true -> a = b.
Proof. destruct a, b; simpl; congruence. Qed.

Lemma flag_other d d' : dir_eqb d d' = false -> d' = match d with LEFT => RIGHT | RIGHT => LEFT end.
Proof. destruct d, d'; simpl; congruence. Qed.

(** The receive step. *)
Lemma inv_recv w i p l1 m l2 ib' :
  inv w -> procs w !! i = Some p -> started w !! i = Some true ->
  running p = true -> inboxes w !! i = Some (l1 ++ m :: l2) ->
  deliver (e_self (handle_message p (stop_event w) m))
    (e_sent (handle_message p (stop_event w) m))
    (<[i := l1 ++ l2]> (inboxes w)) = Some ib' ->
  inv (mkWorld (<[i := e_self (handle_message p (stop_event w) m)]> (procs w))
         ib' (started w) (e_stop (handle_message p (stop_event w) m))).
Proof.
  intros Hw Hp Hst Hrun Hib Hdel.
  pose proof (inv_procs w Hw i p Hp) as Hpi.
  pose proof (lookup_lt_Some _ _ _ Hp) as Hil.
  pose proof (inv_len_procs w Hw) as Hlp.
  pose proof (inv_len_inboxes w Hw) as Hli.
  assert (Hmi : m ∈ l1 ++ m :: l2)
    by (apply elem_of_app; right; apply elem_of_cons; left; reflexivity).
  destruct (inv_msgs w Hw i _ m Hib Hmi) as (q & pq & Hq & Hqo & Hqph & Hok).
  set (ib0 := <[i := l1 ++ l2]> (inboxes w)) in *.
  assert (Hc0 : forall o d, (cnt o d ib0 + is_of o d m = cnt o d (inboxes w))%nat)
    by (intros o d; apply (cnt_remove o d _ _ _ _ _ Hib)).
  assert (Hsub : forall r l y, ib0 !! r = Some l -> y ∈ l ->
            exists l0, inboxes w !! r = Some l0 /\ y ∈ l0)
    by (intros r l y; apply (elem_remove _ _ _ _ _ _ _ _ Hib)).
  assert (Hlen0 : length ib0 = N) by (subst ib0; rewrite length_insert; lia).
  destruct (decide (returning m = false /\ origin_id m < pid p)) as [[Hr Hlt]|Hnk].
  - (* kill rule *)
    rewrite handle_kill in * by auto. cbn [deliver e_self e_sent e_stop] in *.
    injection Hdel as <-.
    apply inv_update with (p := p); auto.
    + destruct Hpi. constructor; cbn; auto.
      * intros d. specialize (Hc0 (pid p) d). specialize (pi_count0 d). lia.
      * rewrite Hst. discriminate.
    + intros j pj d _ _. specialize (Hc0 (pid pj) d). lia.
    + intros r l y Hr0 Hy. left. eauto.
  - destruct (decide (origin_id m = pid p /\ returning m = true)) as [[Ho Hr]|Hnc].
    + (* confirmation *)
      assert (q = i) as -> by (eapply pid_inj; eauto; congruence).
      rewrite Hp in Hq. injection Hq as <-.
      unfold msg_ok in Hok. rewrite Hr in Hok. destruct Hok as [_ Hgood].
      rewrite Hqph in Hgood.
      pose proof (Hc0 (pid p) (direction m)) as Hcm.
      rewrite is_of_same in Hcm by auto.
      pose proof (pi_count _ _ _ Hpi (direction m)) as Hcp.
      assert (Hfl : flag p (direction m) = false)
        by (destruct (flag p (direction m)); [lia | reflexivity]).
      assert (Hz : cnt (pid p) (direction m) ib0 = 0%nat) by lia.
      assert (Hflag : forall d, flag (confirmed p m) d = true ->
                good i d (2 ^ phase p)).
      { intros d. rewrite confirmed_flag.
        destruct (dir_eqb d (direction m)) eqn:Hd.
        - intros _. apply dir_eqb_true in Hd. subst d. exact Hgood.
        - apply (pi_flag_good _ _ _ Hpi). }
      assert (Hcount : forall d, (cnt (pid p) d ib0 +
                 (if flag (confirmed p m) d then 1 else 0) <= 1)%nat).
      { intros d. rewrite confirmed_flag.
        destruct (dir_eqb d (direction m)) eqn:Hd.
        - apply dir_eqb_true in Hd. subst d. rewrite Hz. lia.
        - specialize (Hc0 (pid p) d). pose proof (pi_count _ _ _ Hpi d). lia. }
      destruct (confirm_left (confirmed p m) && confirm_right (confirmed p m))
        eqn:Hboth.
      * destruct (Z_le_gt_dec (ring_size p) (2 ^ phase p)) as [Hle|Hgt].
        -- (* leader *)
           rewrite handle_confirm_leader in * by auto.
           cbn [deliver e_self e_sent e_stop] in *. injection Hdel as <-.
           destruct (confirmed_fields p m) as (Fp & Fph & Flq & Frq & Fsz & Frn).
           apply inv_update with (p := p); auto.
           ++ destruct Hpi. apply andb_true_iff in Hboth as [Hb1 Hb2].
              constructor; cbn -[confirmed];
                rewrite ?Fp, ?Fph, ?Flq, ?Frq, ?Fsz; auto.
              ** intros _. rewrite pi_size0 in Hle. auto.
              ** rewrite Hst. discriminate.
           ++ intros j pj d _ _. specialize (Hc0 (pid pj) d). lia.
           ++ intros r l y Hr0 Hy. left. eauto.
        -- (* next phase *)
           rewrite (handle_confirm_advance p (stop_event w) m Ho Hr Hboth ltac:(lia)) in *.
           set (w0 := mkWorld (procs w) ib0 (started w) (stop_event w)).
           assert (Hw0 : inv w0) by (apply (inv_remove w i l1 m l2); auto).
           rewrite start_phase_stop.
           assert (Hz2 : forall d, cnt (pid p) d (inboxes w0) = 0%nat).
           { intros d. pose proof (Hcount d) as Hd.
             assert (flag (confirmed p m) d = true).
             { apply andb_true_iff in Hboth as [Hb1 Hb2]. destruct d; auto. }
             destruct (flag (confirmed p m) d); [|discriminate]. simpl. lia. }
           apply inv_launch with (w := w0) (p := p); auto.
           ++ unfold confirmed. destruct (dir_eqb (direction m) LEFT); reflexivity.
           ++ unfold confirmed. destruct (dir_eqb (direction m) LEFT); reflexivity.
           ++ unfold confirmed. destruct (dir_eqb (direction m) LEFT); reflexivity.
           ++ unfold confirmed. destruct (dir_eqb (direction m) LEFT); reflexivity.
           ++ unfold next_phase. cbn.
              unfold confirmed. destruct (dir_eqb (direction m) LEFT); exact Hrun.
           ++ unfold next_phase, confirmed.
              pose proof (pi_phase_nonneg _ _ _ Hpi).
              destruct (dir_eqb (direction m) LEFT); cbn; lia.
           ++ intros _. unfold next_phase, confirmed.
              rewrite (pi_size _ _ _ Hpi) in Hgt.
              destruct (dir_eqb (direction m) LEFT); cbn;
                replace (phase p + 1 - 1) with (phase p) by lia; lia.
           ++ apply (inv_len_started w Hw).
      * (* waiting for the other echo *)
        rewrite handle_confirm_wait in * by auto.
        cbn [deliver e_self e_sent e_stop] in *. injection Hdel as <-.
        destruct (confirmed_fields p m) as (Fp & Fph & Flq & Frq & Fsz & Frn).
        apply inv_update with (p := p); auto.
        -- destruct Hpi. constructor; cbn -[confirmed];
             rewrite ?Fp, ?Fph, ?Flq, ?Frq, ?Fsz, ?Frn; auto.
           ++ rewrite Hrun. discriminate.
           ++ rewrite Hst. discriminate.
        -- intros j pj d _ _. specialize (Hc0 (pid pj) d). lia.
        -- intros r l y Hr0 Hy. left. eauto.
    + (* forward rule *)
      assert (Hnk' : returning m = true \/ pid p <= origin_id m).
      { destruct (returning m) eqn:E; [left; reflexivity | right].
        destruct (Z_lt_ge_dec (origin_id m) (pid p)); [|lia].
        exfalso. apply Hnk. auto. }
      rewrite (handle_forward p (stop_event w) m Hnk' Hnc) in *.
      apply (inv_forward w i p l1 m l2); auto.
Qed.

Lemma inv_step w w' : inv w -> step w w' -> inv w'.
Proof.
  intros Hw Hs. destruct Hs as [w i p ib' Hp Hst Hdel | w i p l1 m l2 ib' Hp Hst Hrun Hib Hdel].
  - pose proof (inv_procs w Hw i p Hp) as Hpi.
    destruct (pi_unstarted _ _ _ Hpi Hst) as (Hph & Hcl & Hcr & Hrun & Hz).
    rewrite start_phase_stop.
    apply inv_launch with (p := p); auto; try lia.
    + rewrite length_insert. apply (inv_len_started w Hw).
    + apply list_lookup_insert_eq. apply lookup_lt_Some in Hst. exact Hst.
    + intros j Hj. apply list_lookup_insert_ne. congruence.
  - apply (inv_recv w i p l1 m l2); auto.
Qed.

Lemma inv_reachable w : reachable ids w -> inv w.
Proof.
  unfold reachable. intros H. pattern w. revert w H.
  apply rtc_ind_r.
  - apply inv_init.
  - intros w2 w3 _ Hs IH. apply (inv_step w2); auto.
Qed.


Lemma exec_action_sound w a w' : exec_action w a = Some w' -> step w w'.
Proof.
  destruct a as [i|i]; simpl.
  - destruct (procs w !! i) as [p|] eqn:Hp; [|discriminate].
    destruct (started w !! i) as [[]|] eqn:Hs; try discriminate.
    case_match eqn:Hd; [|discriminate].
    intros [= <-]. apply step_start with (p := p); auto.
  - destruct (procs w !! i) as [p|] eqn:Hp; [|discriminate].
    destruct (started w !! i) as [[]|] eqn:Hs; try discriminate.
    destruct (inboxes w !! i) as [[|m rest]|] eqn:Hi; try discriminate.
    destruct (running p) eqn:Hr; [|discriminate].
    case_match eqn:Hd; [|discriminate].
    intros [= <-]. apply step_recv with (p := p) (l1 := []) (l2 := rest); auto.
Qed.

Lemma exec_sound w s w' : exec w s = Some w' -> rtc step w w'.
Proof.
  revert w. induction s as [|a s IH]; intros w; simpl.
  - intros [= <-]. reflexivity.
  - destruct (exec_action w a) as [w1|] eqn:Ha; [|discriminate].
    intros H. apply rtc_l with w1; [apply (exec_action_sound w a); exact Ha | apply IH; exact H].
Qed.

Lemma reachable_final_5_1 : reachable [5; 1] final_5_1.
Proof. apply (exec_sound _ sched_5_1). vm_compute. reflexivity. Qed.

Lemma inv_max w i p : inv w -> procs w !! i = Some p -> running p = false ->
  forall x, x ∈ ids -> x <= pid p.
Proof.
  intros Hw Hp Hr.
  pose proof (inv_procs w Hw i p Hp) as Hpi.
  destruct (pi_term _ _ _ Hpi Hr) as (Hl & _ & HN).
  pose proof (pi_flag_good _ _ _ Hpi LEFT Hl) as Hg.
  pose proof (lookup_lt_Some _ _ _ Hp) as Hil. rewrite (inv_len_procs w Hw) in Hil.
  apply (good_cover i LEFT (2 ^ phase p)); auto.
  apply (pi_pid _ _ _ Hpi).
Qed.

End Election.

(** ** Helpers for the claims *)

Lemma handle_phase st s m :
  let st' := e_self (handle_message st s m) in
  phase st' = phase st \/
  (phase st' = phase st + 1 /\ origin_id m = pid st /\ returning m = true /\
   confirm_left (confirmed st m) = true /\ confirm_right (confirmed st m) = true /\
   2 ^ phase st < ring_size st /\
   confirm_left st' = false /\ confirm_right st' = false).
Proof.
  cbv zeta.
  destruct (negb (returning m) && (origin_id m <? pid st)) eqn:Hk.
  - apply andb_true_iff in Hk as [Hr Ho]. apply negb_true_iff in Hr.
    apply Z.ltb_lt in Ho. rewrite (handle_kill st s m Hr Ho). left. reflexivity.
  - destruct (decide (origin_id m = pid st /\ returning m = true)) as [[Ho Hr]|Hn].
    + destruct (confirm_left (confirmed st m) && confirm_right (confirmed st m))
        eqn:Hb.
      * pose proof (confirmed_fields st m) as (Fp & Fph & _ & _ & _ & _).
        destruct (Z.le_gt_cases (ring_size st) (2 ^ phase st)) as [Hs|Hs].
        -- rewrite (handle_confirm_leader st s m Ho Hr Hb Hs). left. exact Fph.
        -- rewrite (handle_confirm_advance st s m Ho Hr Hb ltac:(lia)).
           apply andb_true_iff in Hb as [Hl Hrr].
           right. unfold next_phase. cbn. rewrite Fph. auto 10.
      * rewrite (handle_confirm_wait st s m Ho Hr Hb). left.
        apply (confirmed_fields st m).
    + assert (Hnk : returning m = true \/ pid st <= origin_id m).
      { destruct (returning m); [left; reflexivity|right].
        cbn in Hk. apply Z.ltb_ge in Hk. exact Hk. }
      rewrite (handle_forward st s m Hnk Hn). left. reflexivity.
Qed.

Lemma handle_seq_phase st s ms : phase st <= phase (fst (handle_seq st s ms)).
Proof.
  revert st s. induction ms as [|m ms IH]; intros st s; cbn [handle_seq fst].
  - lia.
  - specialize (IH (e_self (handle_message st s m)) (e_stop (handle_message st s m))).
    destruct (handle_phase st s m) as [H|(H & _)]; lia.
Qed.

Lemma step_phase w w' i p p' : step w w' ->
  procs w !! i = Some p -> procs w' !! i = Some p' -> phase p <= phase p'.
Proof.
  intros Hs Hp Hp'. inversion Hs as [w0 j q ib' Hq Hst Hd | w0 j q l1 m l2 ib' Hq Hst Hrun Hib Hd];
    subst; cbn [procs] in Hp'.
  - rewrite list_lookup_insert in Hp'. case_decide as Hji.
    + destruct Hji as [<- _]. rewrite Hq in Hp. injection Hp as <-.
      injection Hp' as <-. cbn. lia.
    + rewrite Hp in Hp'. injection Hp' as <-. lia.
  - rewrite list_lookup_insert in Hp'. case_decide as Hji.
    + destruct Hji as [<- _]. rewrite Hq in Hp. injection Hp as <-.
      injection Hp' as <-.
      match goal with |- _ <= phase (e_self (handle_message ?a ?b ?c)) =>
        destruct (handle_phase a b c) as [H|(H & _)]; lia end.
    + rewrite Hp in Hp'. injection Hp' as <-. lia.
Qed.

Lemma pow_mono_lt k j n : 0 <= k -> k < j -> 2 ^ (j - 1) < n -> 2 ^ k < n.
Proof.
  intros Hk Hkj Hj. assert (2 ^ k <= 2 ^ (j - 1)) by (apply Z.pow_le_mono_r; lia).
  lia.
Qed.

(** * The claims *)

(** C1: in every run on a ring of at least two processes with distinct
    identifiers, a process that reaches TERMINATED ([running] cleared by
    the leader branch, lines 98-103) holds the maximum identifier, two
    terminated processes are the same one, and the termination signal is
    only ever set together with such a termination. *)
Theorem C1_only_max_terminates (ids : list Z) (w : World) :
  NoDup ids -> (2 <= length ids)%nat -> reachable ids w ->
  (forall i p, procs w !! i = Some p -> running p = false ->
     ids !! i = Some (pid p) /\ forall x, x ∈ ids -> x <= pid p) /\
  (forall i j p q, procs w !! i = Some p -> procs w !! j = Some q ->
     running p = false -> running q = false -> i = j) /\
  (stop_event w = true ->
     exists i p, procs w !! i = Some p /\ running p = false /\
       forall x, x ∈ ids -> x <= pid p).
Proof.
  intros Hnd Hge Hr.
  pose proof (inv_reachable ids Hnd Hge w Hr) as Hw.
  split; [|split].
  - intros i p Hp Hrun. split.
    + apply (pi_pid _ _ _ _ (inv_procs _ _ Hw i p Hp)).
    + apply (inv_max ids Hge w i p Hw Hp Hrun).
  - intros i j p q Hp Hq Hrp Hrq.
    pose proof (inv_max ids Hge w i p Hw Hp Hrp) as Hmp.
    pose proof (inv_max ids Hge w j q Hw Hq Hrq) as Hmq.
    pose proof (pi_pid _ _ _ _ (inv_procs _ _ Hw i p Hp)) as Hip.
    pose proof (pi_pid _ _ _ _ (inv_procs _ _ Hw j q Hq)) as Hjq.
    assert (pid p = pid q).
    { apply Z.le_antisymm; [apply Hmq | apply Hmp];
        eapply list_elem_of_lookup_2; eauto. }
    eapply (pid_inj ids Hnd w); eauto.
  - intros Hs. destruct (inv_stop _ _ Hw Hs) as (i & p & Hp & Hrun).
    exists i, p. repeat split; auto.
    apply (inv_max ids Hge w i p Hw Hp Hrun).
Qed.


Lemma C1_witness :
  NoDup [5; 1] /\ (2 <= length [5; 1])%nat /\ reachable [5; 1] final_5_1 /\
  ((forall i p, procs final_5_1 !! i = Some p -> running p = false ->
     [5; 1] !! i = Some (pid p) /\ forall x, x ∈ [5; 1] -> x <= pid p) /\
   (forall i j p q, procs final_5_1 !! i = Some p -> procs final_5_1 !! j = Some q ->
     running p = false -> running q = false -> i = j) /\
   (stop_event final_5_1 = true ->
     exists i p, procs final_5_1 !! i = Some p /\ running p = false /\
       forall x, x ∈ [5; 1] -> x <= pid p)).
Proof.
  assert (Hnd : NoDup [5; 1]) by (apply (bool_decide_unpack _); vm_compute; reflexivity).
  assert (Hr : reachable [5; 1] final_5_1).
  { apply (exec_sound _ sched_5_1). vm_compute. reflexivity. }
  split; [exact Hnd|]. split; [simpl; lia|]. split; [exact Hr|].
  apply (C1_only_max_terminates [5; 1] final_5_1 Hnd); [simpl; lia | exact Hr].
Defined.

(** C2: when a confirmation completes the pair of flags of a running
    process, the process terminates (clears [running], sets the stop
    signal) if and only if its radius [2 ^ phase] has reached [ring_size],
    and otherwise moves to phase [k + 1]; and in every run a terminated
    process is at the smallest phase [k] with [2 ^ k >= N]: [N <= 2 ^ k]
    and [2 ^ j < N] for every phase [j < k]. *)
Theorem C2_terminates_at_smallest_phase :
  (forall st s m, running st = true -> origin_id m = pid st ->
     returning m = true ->
     confirm_left (confirmed st m) = true -> confirm_right (confirmed st m) = true ->
     (running (e_self (handle_message st s m)) = false <->
        ring_size st <= 2 ^ phase st) /\
     (ring_size st <= 2 ^ phase st ->
        e_stop (handle_message st s m) = true /\
        phase (e_self (handle_message st s m)) = phase st) /\
     (2 ^ phase st < ring_size st ->
        phase (e_self (handle_message st s m)) = phase st + 1)) /\
  (forall ids w i p, NoDup ids -> (2 <= length ids)%nat -> reachable ids w ->
     procs w !! i = Some p -> running p = false ->
     Z.of_nat (length ids) <= 2 ^ phase p /\
     forall k, 0 <= k < phase p -> 2 ^ k < Z.of_nat (length ids)).
Proof.
  split.
  - intros st s m Hrun Ho Hr Hl Hrr.
    assert (Hb : confirm_left (confirmed st m) && confirm_right (confirmed st m) = true)
      by (rewrite Hl, Hrr; reflexivity).
    pose proof (confirmed_fields st m) as (Fp & Fph & _ & _ & _ & Fru).
    destruct (Z.le_gt_cases (ring_size st) (2 ^ phase st)) as [Hs|Hs].
    + rewrite (handle_confirm_leader st s m Ho Hr Hb Hs). cbn.
      split; [tauto|]. split; [auto|lia].
    + rewrite (handle_confirm_advance st s m Ho Hr Hb ltac:(lia)).
      unfold next_phase. cbn. rewrite Fru, Fph, Hrun.
      split; [split; [discriminate|lia]|]. split; [lia|reflexivity].
  - intros ids w i p Hnd Hge Hr Hp Hrun.
    pose proof (inv_reachable ids Hnd Hge w Hr) as Hw.
    pose proof (inv_procs _ _ Hw i p Hp) as Hpi.
    destruct (pi_term _ _ _ _ Hpi Hrun) as (_ & _ & HN).
    split; [exact HN|].
    intros k Hk. apply (pow_mono_lt k (phase p)); [lia|lia|].
    apply (pi_phase_prev _ _ _ _ Hpi). lia.
Qed.

Lemma C2_witness :
  let st := mkProcess 5 1 true (Some 1%nat) (Some 1%nat) true false true 4 2 in
  let m := mkMessage 5 RIGHT 1 0 true in
  NoDup ids_5 /\ reachable ids_5 final_5 /\
  procs final_5 !! 3%nat = Some (mkProcess 9 3 true (Some 2%nat) (Some 4%nat)
                                  true true false 10 5) /\
  (running (e_self (handle_message st false m)) = false <->
     ring_size st <= 2 ^ phase st) /\
  Z.of_nat (length ids_5) <= 2 ^ 3 /\
  (forall k, 0 <= k < 3 -> 2 ^ k < Z.of_nat (length ids_5)).
Proof.
  intros st m.
  assert (Hnd : NoDup ids_5) by (apply (bool_decide_unpack _); vm_compute; reflexivity).
  assert (Hr : reachable ids_5 final_5).
  { apply (exec_sound _ (run_sched ids_5 400)). vm_compute. reflexivity. }
  assert (Hp : procs final_5 !! 3%nat = Some (mkProcess 9 3 true (Some 2%nat)
                 (Some 4%nat) true true false 10 5)) by (vm_compute; reflexivity).
  destruct C2_terminates_at_smallest_phase as [Hloc Hglob].
  split; [exact Hnd|]. split; [exact Hr|]. split; [exact Hp|].
  split.
  - apply (Hloc st false m eq_refl eq_refl eq_refl eq_refl eq_refl).
  - apply (Hglob ids_5 final_5 3%nat _ Hnd ltac:(simpl; lia) Hr Hp eq_refl).
Defined.

(** C3: a non-returning message whose origin is below the receiver's
    identifier is discarded: nothing is sent, and the receiver (its phase,
    flags and message counter) and the stop signal are unchanged. *)
Theorem C3_kill_rule_discards st s m :
  returning m = false -> origin_id m < pid st ->
  e_sent (handle_message st s m) = [] /\
  e_self (handle_message st s m) = st /\
  e_stop (handle_message st s m) = s.
Proof.
  intros Hr Ho. rewrite (handle_kill st s m Hr Ho). auto.
Qed.

Lemma C3_witness :
  let st := mkProcess 9 0 true (Some 2%nat) (Some 4%nat) false false true 2 5 in
  let m := mkMessage 3 LEFT 0 1 false in
  returning m = false /\ origin_id m < pid st /\
  e_sent (handle_message st false m) = [] /\
  e_self (handle_message st false m) = st /\
  e_stop (handle_message st false m) = false.
Proof.
  intros st m.
  split; [reflexivity|]. split; [vm_compute; reflexivity|].
  apply (C3_kill_rule_discards st false m); [reflexivity | vm_compute; reflexivity].
Defined.

(** C4: [start_phase] sends exactly two messages, a LEFT probe on the left
    queue and then a RIGHT probe on the right queue, each with the sender's
    identifier, its phase [k], distance [2 ^ k] and [returning] false; the
    left queue of process [i] is the inbox of [(i - 1) mod N], the right
    one that of [(i + 1) mod N]; and both confirmation flags are false
    whenever [start_phase] is called: at the head of [run] (the process has
    not started yet) and in the phase advance of [handle_message], which
    first resets them. *)
Theorem C4_start_phase_sends :
  (forall st s,
     e_sent (start_phase (mkEffect st s [])) =
       [(LeftQ, mkMessage (pid st) LEFT (phase st) (2 ^ phase st) false);
        (RightQ, mkMessage (pid st) RIGHT (phase st) (2 ^ phase st) false)]) /\
  (forall ids w i p, NoDup ids -> (2 <= length ids)%nat -> reachable ids w ->
     procs w !! i = Some p ->
     left_queue p = Some (ring_left (length ids) i) /\
     right_queue p = Some (ring_right (length ids) i)) /\
  (forall ids w i p, NoDup ids -> (2 <= length ids)%nat -> reachable ids w ->
     procs w !! i = Some p -> started w !! i = Some false ->
     confirm_left p = false /\ confirm_right p = false /\ phase p = 0) /\
  (forall st s m, origin_id m = pid st -> returning m = true ->
     confirm_left (confirmed st m) = true -> confirm_right (confirmed st m) = true ->
     2 ^ phase st < ring_size st ->
     exists st', handle_message st s m = start_phase (mkEffect st' s []) /\
       confirm_left st' = false /\ confirm_right st' = false /\
       pid st' = pid st /\ phase st' = phase st + 1).
Proof.
  split; [|split; [|split]].
  - intros st s. reflexivity.
  - intros ids w i p Hnd Hge Hr Hp.
    pose proof (inv_procs _ _ (inv_reachable ids Hnd Hge w Hr) i p Hp) as Hpi.
    split; [apply (pi_left _ _ _ _ Hpi) | apply (pi_right _ _ _ _ Hpi)].
  - intros ids w i p Hnd Hge Hr Hp Hs.
    pose proof (inv_procs _ _ (inv_reachable ids Hnd Hge w Hr) i p Hp) as Hpi.
    destruct (pi_unstarted _ _ _ _ Hpi Hs) as (Hph & Hl & Hrr & _). auto.
  - intros st s m Ho Hr Hl Hrr Hs.
    assert (Hb : confirm_left (confirmed st m) && confirm_right (confirmed st m) = true)
      by (rewrite Hl, Hrr; reflexivity).
    exists (next_phase (confirmed st m)).
    rewrite (handle_confirm_advance st s m Ho Hr Hb Hs).
    pose proof (confirmed_fields st m) as (Fp & Fph & _).
    unfold next_phase. cbn. rewrite Fp, Fph. auto.
Qed.

Lemma C4_witness :
  NoDup ids_5 /\ reachable ids_5 (init_world ids_5) /\
  procs (init_world ids_5) !! 0%nat =
    Some (mkProcess 3 0 true (Some 4%nat) (Some 1%nat) false false true 0 5) /\
  started (init_world ids_5) !! 0%nat = Some false /\
  (left_queue (mkProcess 3 0 true (Some 4%nat) (Some 1%nat) false false true 0 5)
     = Some (ring_left 5 0) /\
   right_queue (mkProcess 3 0 true (Some 4%nat) (Some 1%nat) false false true 0 5)
     = Some (ring_right 5 0)) /\
  (confirm_left (mkProcess 3 0 true (Some 4%nat) (Some 1%nat) false false true 0 5)
     = false /\
   confirm_right (mkProcess 3 0 true (Some 4%nat) (Some 1%nat) false false true 0 5)
     = false /\
   phase (mkProcess 3 0 true (Some 4%nat) (Some 1%nat) false false true 0 5) = 0).
Proof.
  assert (Hnd : NoDup ids_5) by (apply (bool_decide_unpack _); vm_compute; reflexivity).
  assert (Hr : reachable ids_5 (init_world ids_5)) by apply rtc_refl.
  assert (Hp : procs (init_world ids_5) !! 0%nat =
    Some (mkProcess 3 0 true (Some 4%nat) (Some 1%nat) false false true 0 5))
    by (vm_compute; reflexivity).
  assert (Hs : started (init_world ids_5) !! 0%nat = Some false)
    by (vm_compute; reflexivity).
  destruct C4_start_phase_sends as (_ & Hq & Hu & _).
  split; [exact Hnd|]. split; [exact Hr|]. split; [exact Hp|]. split; [exact Hs|].
  split.
  - apply (Hq ids_5 (init_world ids_5) 0%nat _ Hnd ltac:(simpl; lia) Hr Hp).
  - apply (Hu ids_5 (init_world ids_5) 0%nat _ Hnd ltac:(simpl; lia) Hr Hp Hs).
Defined.

(** C5: a message that is neither killed nor a confirmation of the
    receiver leaves by exactly one [send]: origin, direction and phase are
    kept; an outbound message loses exactly one unit of distance and turns
    returning exactly when its distance reaches 0, a returning one is sent
    unchanged; an outbound probe goes on through the queue of its own
    direction, a returning one through the opposite queue. *)
Theorem C5_forward_rule st s m :
  (returning m = true \/ pid st <= origin_id m) ->
  ~ (origin_id m = pid st /\ returning m = true) ->
  exists c m', e_sent (handle_message st s m) = [(c, m')] /\
    message_counter (e_self (handle_message st s m)) = message_counter st + 1 /\
    origin_id m' = origin_id m /\ direction m' = direction m /\
    msg_phase m' = msg_phase m /\
    (returning m = false ->
       distance m' = distance m - 1 /\ (returning m' = true <-> distance m' = 0)) /\
    (returning m = true -> m' = m) /\
    (returning m' = false ->
       c = match direction m with LEFT => LeftQ | RIGHT => RightQ end) /\
    (returning m' = true ->
       c = match direction m with LEFT => RightQ | RIGHT => LeftQ end).
Proof.
  intros Hnk Hn. rewrite (handle_forward st s m Hnk Hn).
  exists (choose_direction (decrement m)), (decrement m).
  split; [reflexivity|]. split; [reflexivity|].
  destruct m as [o d k x r]. unfold decrement, choose_direction. cbn.
  destruct r; cbn.
  - repeat split; try discriminate; intros; destruct d; reflexivity.
  - destruct (Z.eqb_spec (x - 1) 0) as [E|E]; cbn;
      repeat split; intros; try discriminate; try lia; destruct d; try reflexivity;
      try discriminate; try lia.
Qed.

Lemma C5_witness :
  let st := mkProcess 3 1 true (Some 4%nat) (Some 1%nat) false false true 4 5 in
  let m := mkMessage 9 LEFT 1 1 false in
  (returning m = true \/ pid st <= origin_id m) /\
  ~ (origin_id m = pid st /\ returning m = true) /\
  exists c m', e_sent (handle_message st false m) = [(c, m')] /\
    distance m' = 0 /\ returning m' = true /\ c = RightQ.
Proof.
  intros st m.
  assert (H1 : returning m = true \/ pid st <= origin_id m) by (right; cbn; lia).
  assert (H2 : ~ (origin_id m = pid st /\ returning m = true))
    by (cbn; intros [H _]; discriminate).
  split; [exact H1|]. split; [exact H2|].
  destruct (C5_forward_rule st false m H1 H2)
    as (c & m' & Hs & _ & _ & _ & _ & Hd & _ & _ & Hc).
  exists c, m'.
  destruct (Hd eq_refl) as [Hx Hrt].
  assert (H0 : distance m' = 0) by (rewrite Hx; reflexivity).
  split; [exact Hs|]. split; [exact H0|]. split; [apply Hrt; exact H0|].
  rewrite (Hc (proj2 Hrt H0)). reflexivity.
Defined.

(** C6: the phase counter starts at 0 ([Process.__init__]), is left alone
    by [start_phase], and a call of [handle_message] either keeps it or
    raises it by exactly 1, the latter only for a returning confirmation of
    the process's own probe that completes both flags while the radius is
    below [ring_size], and then both flags are reset; so it never decreases,
    over a sequence of handled messages or a step of the system. *)
Theorem C6_phase_counter :
  (forall p n, phase (new_process p n) = 0) /\
  (forall st s, phase (e_self (start_phase (mkEffect st s []))) = phase st) /\
  (forall st s m,
     phase (e_self (handle_message st s m)) = phase st \/
     (phase (e_self (handle_message st s m)) = phase st + 1 /\
      origin_id m = pid st /\ returning m = true /\
      confirm_left (confirmed st m) = true /\
      confirm_right (confirmed st m) = true /\
      2 ^ phase st < ring_size st /\
      confirm_left (e_self (handle_message st s m)) = false /\
      confirm_right (e_self (handle_message st s m)) = false)) /\
  (forall st s ms, phase st <= phase (fst (handle_seq st s ms))) /\
  (forall w w' i p p', step w w' ->
     procs w !! i = Some p -> procs w' !! i = Some p' -> phase p <= phase p').
Proof.
  split; [intros; reflexivity|].
  split; [intros; reflexivity|].
  split; [exact handle_phase|].
  split; [exact handle_seq_phase|].
  exact step_phase.
Qed.

Lemma C6_witness :
  let st := mkProcess 5 0 true (Some 1%nat) (Some 1%nat) true false true 2 2 in
  let m := mkMessage 5 RIGHT 0 0 true in
  phase (new_process 5 2) = 0 /\
  phase (e_self (handle_message st false m)) = 1 /\
  confirm_left (e_self (handle_message st false m)) = false /\
  0 <= phase (fst (handle_seq st false [m])).
Proof.
  intros st m.
  destruct C6_phase_counter as (H0 & _ & Hstep & Hseq & _).
  split; [apply H0|].
  destruct (Hstep st false m) as [He|(He & _ & _ & _ & _ & _ & Hl & _)].
  - vm_compute in He. discriminate.
  - split; [rewrite He; reflexivity|]. split; [exact Hl|].
    apply (Hseq st false [m]).
Defined.

(** C7 (as stated, refuted): with the repeated identifiers [5; 5]
    [connect_ring] wires the two processes without complaint, both
    threads start, and both end up terminated as leaders; a one-process
    list is wired to itself as well. *)
Lemma C7_counterexample :
  connect_ring [new_process 5 2; new_process 5 2] =
    [set_queues (new_process 5 2) (Some 1%nat) (Some 1%nat);
     set_queues (new_process 5 2) (Some 0%nat) (Some 0%nat)] /\
  connect_ring [new_process 5 1] =
    [set_queues (new_process 5 1) (Some 0%nat) (Some 0%nat)] /\
  reachable [5; 5] final_dup /\
  started final_dup = [true; true] /\
  (running <$> procs final_dup) = [false; false] /\
  stop_event final_dup = true.
Proof.
  split; [vm_compute; reflexivity|]. split; [vm_compute; reflexivity|].
  split; [apply (exec_sound _ (run_sched [5; 5] 100)); vm_compute; reflexivity|].
  vm_compute. auto.
Qed.

(** C7 (what the code does): [connect_ring] checks nothing and cannot
    fail: for any list it keeps the length and gives process [i] the left
    queue of process [(i - 1) mod n] and the right queue of process
    [(i + 1) mod n]; the guarantees live in [main] instead, whose prompt
    for N is repeated until [N >= 2] and whose manual identifier entry
    refuses non-positive and repeated values, so the list it builds stays
    duplicate-free and positive. *)
Theorem C7_connect_ring_unchecked :
  (forall ps : list Process, length (connect_ring ps) = length ps /\
     forall i p, ps !! i = Some p ->
       connect_ring ps !! i =
         Some (set_queues p (Some (ring_left (length ps) i))
                 (Some (ring_right (length ps) i)))) /\
  (forall n, accept_n n = true <-> 2 <= n) /\
  (forall ids x, NoDup ids -> Forall (fun y => 0 < y) ids ->
     NoDup (add_id ids x) /\ Forall (fun y => 0 < y) (add_id ids x)).
Proof.
  split; [|split].
  - intros ps. unfold connect_ring. split; [apply length_imap|].
    intros i p Hp. rewrite list_lookup_imap, Hp. reflexivity.
  - intros n. unfold accept_n.
    destruct (Z.ltb_spec n 2); cbn; split; intros; try discriminate; lia.
  - intros ids x Hnd Hpos. unfold add_id.
    destruct (Z.leb_spec x 0); [auto|].
    destruct (existsb (Z.eqb x) ids) eqn:E; [auto|].
    split.
    + apply NoDup_app. split; [exact Hnd|]. split; [|apply NoDup_singleton].
      intros y Hy Hy'. apply list_elem_of_singleton in Hy'. subst y.
      assert (existsb (Z.eqb x) ids = true) as E'.
      { apply existsb_exists. exists x. split; [apply list_elem_of_In; exact Hy|].
        apply Z.eqb_refl. }
      congruence.
    + apply Forall_app. split; [exact Hpos|]. constructor; [lia|constructor].
Qed.

(** C8 (as stated, refuted): a process receiving its own non-returning
    probe raises nothing; [handle_message] returns normally, having sent
    the probe on as an echo (distance 0, returning) through its right
    queue and counted the send. *)
Lemma C8_counterexample :
  handle_message
    (mkProcess 5 1 true (Some 1%nat) (Some 1%nat) false false true 2 2) false
    (mkMessage 5 LEFT 1 1 false) =
  mkEffect (mkProcess 5 1 true (Some 1%nat) (Some 1%nat) false false true 3 2)
    false [(RightQ, mkMessage 5 LEFT 1 0 true)].
Proof. reflexivity. Qed.

(** C8 (what the code does): a self-originated non-returning message is
    neither refused nor ignored; it goes through the forward rule. *)
Theorem C8_self_probe_forwarded st s m :
  origin_id m = pid st -> returning m = false ->
  handle_message st s m = forward_rule (mkEffect st s []) m.
Proof.
  intros Ho Hr. apply handle_forward.
  - right. lia.
  - intros [_ H]. congruence.
Qed.

Lemma C8_witness :
  let st := mkProcess 5 1 true (Some 1%nat) (Some 1%nat) false false true 2 2 in
  let m := mkMessage 5 RIGHT 1 1 false in
  origin_id m = pid st /\ returning m = false /\
  handle_message st false m = forward_rule (mkEffect st false []) m.
Proof.
  intros st m. split; [reflexivity|]. split; [reflexivity|].
  apply C8_self_probe_forwarded; reflexivity.
Defined.

(** C9: a self-originated non-returning message is relayed by the
    forward rule like any other probe: one send of the decremented message
    on the queue the direction rule chooses, the counter raised by one and
    nothing else changed; on the ring [5; 1] a run reaches a state where
    process 5 has its own phase-1 probes (distance 1, outbound) pending,
    and the same run ends with process 5 terminated at phase 1 and the stop
    signal set. *)
Theorem C9_self_probe_relayed :
  (forall st s m, origin_id m = pid st -> returning m = false ->
     e_sent (handle_message st s m) =
       [(choose_direction (decrement m), decrement m)] /\
     e_self (handle_message st s m) =
       set_counter st (message_counter st + 1) /\
     e_stop (handle_message st s m) = s) /\
  (reachable [5; 1] mid_5_1 /\
   exists l, inboxes mid_5_1 !! 0%nat = Some l /\
     mkMessage 5 LEFT 1 1 false ∈ l /\ mkMessage 5 RIGHT 1 1 false ∈ l) /\
  (rtc step mid_5_1 final_5_1 /\
   procs final_5_1 !! 0%nat =
     Some (mkProcess 5 1 true (Some 1%nat) (Some 1%nat) true true false 6 2) /\
   stop_event final_5_1 = true).
Proof.
  split; [|split; [split|]].
  - intros st s m Ho Hr.
    assert (Hnk : returning m = true \/ pid st <= origin_id m) by (right; lia).
    assert (Hn : ~ (origin_id m = pid st /\ returning m = true))
      by (intros [_ H]; congruence).
    rewrite (handle_forward st s m Hnk Hn). auto.
  - apply (exec_sound _ (take 10 sched_5_1)). vm_compute. reflexivity.
  - eexists. split; [vm_compute; reflexivity|].
    split; [apply elem_of_cons; left; reflexivity|].
    apply elem_of_cons; right; apply elem_of_cons; left; reflexivity.
  - split; [|split; vm_compute; reflexivity].
    apply (exec_sound _ (drop 10 sched_5_1)). vm_compute. reflexivity.
Qed.

Lemma C9_witness :
  let st := mkProcess 5 1 true (Some 1%nat) (Some 1%nat) false false true 2 2 in
  let m := mkMessage 5 LEFT 1 1 false in
  origin_id m = pid st /\ returning m = false /\
  e_sent (handle_message st false m) = [(RightQ, mkMessage 5 LEFT 1 0 true)].
Proof.
  intros st m. split; [reflexivity|]. split; [reflexivity|].
  destruct C9_self_probe_relayed as [Hrel _].
  destruct (Hrel st false m eq_refl eq_refl) as [Hs _].
  rewrite Hs. reflexivity.
Defined.

(** C10: in every run on a ring of at least two distinct identifiers,
    every message pending in an inbox has a non-negative distance, and a
    non-returning one a distance of at least 1; so the forward rule never
    decrements a distance-0 probe. *)
Theorem C10_distance_positive ids w :
  NoDup ids -> (2 <= length ids)%nat -> reachable ids w ->
  forall r l m, inboxes w !! r = Some l -> m ∈ l ->
    (returning m = false -> 1 <= distance m) /\ 0 <= distance m.
Proof.
  intros Hnd Hge Hr r l m Hl Hm.
  pose proof (inv_reachable ids Hnd Hge w Hr) as Hw.
  destruct (inv_msgs _ _ Hw r l m Hl Hm) as (q & pq & _ & _ & _ & Hok).
  unfold msg_ok in Hok. destruct (returning m).
  - destruct Hok as [Hd _]. split; [discriminate|lia].
  - destruct Hok as [Hd _]. split; [intros _|]; lia.
Qed.

Lemma C10_witness :
  NoDup [5; 1] /\ reachable [5; 1] mid_5_1 /\
  inboxes mid_5_1 !! 0%nat =
    Some [mkMessage 5 LEFT 1 1 false; mkMessage 5 RIGHT 1 1 false] /\
  1 <= distance (mkMessage 5 LEFT 1 1 false).
Proof.
  assert (Hnd : NoDup [5; 1]) by (apply (bool_decide_unpack _); vm_compute; reflexivity).
  assert (Hr : reachable [5; 1] mid_5_1).
  { apply (exec_sound _ (take 10 sched_5_1)). vm_compute. reflexivity. }
  assert (Hl : inboxes mid_5_1 !! 0%nat =
    Some [mkMessage 5 LEFT 1 1 false; mkMessage 5 RIGHT 1 1 false])
    by (vm_compute; reflexivity).
  split; [exact Hnd|]. split; [exact Hr|]. split; [exact Hl|].
  apply (C10_distance_positive [5; 1] mid_5_1 Hnd ltac:(simpl; lia) Hr 0%nat _ _ Hl).
  - apply elem_of_cons. left. reflexivity.
  - reflexivity.
Defined.

(** * Further properties of the program *)

(** ** Helpers *)

Lemma ring_left_val n i : (0 < n)%nat -> (i < n)%nat ->
  Z.of_nat (ring_left n i) =
    if (i =? 0)%nat then Z.of_nat n - 1 else Z.of_nat i - 1.
Proof.
  intros Hn Hi. unfold ring_left.
  rewrite Z2Nat.id by (apply Z.mod_pos_bound; lia).
  destruct (Nat.eqb_spec i 0) as [->|Hi0].
  - symmetry. apply (Z.mod_unique _ _ (-1)); lia.
  - symmetry. apply (Z.mod_unique _ _ 0); lia.
Qed.

Lemma ring_right_val n i : (0 < n)%nat -> (i < n)%nat ->
  Z.of_nat (ring_right n i) =
    if (i + 1 =? n)%nat then 0 else Z.of_nat i + 1.
Proof.
  intros Hn Hi. unfold ring_right.
  rewrite Z2Nat.id by (apply Z.mod_pos_bound; lia).
  destruct (Nat.eqb_spec (i + 1) n) as [E|E].
  - symmetry. apply (Z.mod_unique _ _ 1); lia.
  - symmetry. apply (Z.mod_unique _ _ 0); lia.
Qed.

Lemma exec_pick_sound w a w' : exec_pick w a = Some w' -> step w w'.
Proof.
  destruct a as [i|i k]; cbn [exec_pick].
  - apply exec_action_sound.
  - destruct (procs w !! i) as [p|] eqn:Hp; [|discriminate].
    destruct (started w !! i) as [[]|] eqn:Hs; try discriminate.
    destruct (inboxes w !! i) as [l|] eqn:Hi; [|discriminate].
    destruct (l !! k) as [m|] eqn:Hm; [|discriminate].
    destruct (running p) eqn:Hr; [|discriminate].
    case_match eqn:Hd; [|discriminate].
    intros [= <-].
    apply step_recv with (p := p) (l1 := take k l) (l2 := drop (S k) l); auto.
    rewrite take_drop_middle by exact Hm. exact Hi.
Qed.

Lemma exec_picks_sound w s w' : exec_picks w s = Some w' -> rtc step w w'.
Proof.
  revert w. induction s as [|a s IH]; intros w; cbn [exec_picks].
  - intros [= <-]. reflexivity.
  - destruct (exec_pick w a) as [w1|] eqn:Ha; [|discriminate].
    intros H. apply rtc_l with w1; [exact (exec_pick_sound w a w1 Ha) | apply IH; exact H].
Qed.

(** ** connect_ring *)

(** [connect_ring] wires a consistent ring: both neighbours of process [i]
    are processes of the list, the left neighbour of the right neighbour
    (and the right neighbour of the left one) is [i] itself, and the two
    queues of a process lead to the same inbox exactly when there are at
    most two processes. *)
Theorem ring_wiring_consistent n i : (0 < n)%nat -> (i < n)%nat ->
  (ring_left n i < n)%nat /\ (ring_right n i < n)%nat /\
  ring_left n (ring_right n i) = i /\ ring_right n (ring_left n i) = i /\
  (ring_left n i = ring_right n i <-> (n <= 2)%nat).
Proof.
  intros Hn Hi.
  pose proof (ring_left_val n i Hn Hi) as Li.
  pose proof (ring_right_val n i Hn Hi) as Ri.
  assert (HL : (ring_left n i < n)%nat) by (destruct (Nat.eqb_spec i 0); lia).
  assert (HR : (ring_right n i < n)%nat) by (destruct (Nat.eqb_spec (i + 1) n); lia).
  pose proof (ring_left_val n _ Hn HR) as LR.
  pose proof (ring_right_val n _ Hn HL) as RL.
  split; [exact HL|]. split; [exact HR|].
  destruct (Nat.eqb_spec i 0), (Nat.eqb_spec (i + 1) n),
    (Nat.eqb_spec (ring_right n i) 0), (Nat.eqb_spec (ring_left n i + 1) n);
    repeat split; intros; lia.
Qed.

Lemma ring_wiring_consistent_witness :
  (0 < 5)%nat /\ (3 < 5)%nat /\
  ring_left 5 (ring_right 5 3) = 3%nat /\ (ring_left 5 3 = ring_right 5 3 <-> (5 <= 2)%nat).
Proof.
  split; [lia|]. split; [lia|].
  destruct (ring_wiring_consistent 5 3 ltac:(lia) ltac:(lia)) as (_ & _ & H & _ & Hiff).
  split; [exact H | exact Hiff].
Defined.

(** ** handle_message and start_phase: what they leave alone *)

(** Neither method touches the identifier, [active], the two queues or
    [ring_size]; [message_counter] grows by exactly the number of messages
    put; and the stop event, once set, is never cleared. *)
Theorem methods_frame :
  (forall st s m,
     let e := handle_message st s m in
     pid (e_self e) = pid st /\ active (e_self e) = active st /\
     left_queue (e_self e) = left_queue st /\
     right_queue (e_self e) = right_queue st /\
     ring_size (e_self e) = ring_size st /\
     message_counter (e_self e) =
       message_counter st + Z.of_nat (length (e_sent e)) /\
     (s = true -> e_stop e = true)) /\
  (forall st s,
     let e := start_phase (mkEffect st s []) in
     pid (e_self e) = pid st /\ active (e_self e) = active st /\
     left_queue (e_self e) = left_queue st /\
     right_queue (e_self e) = right_queue st /\
     ring_size (e_self e) = ring_size st /\
     message_counter (e_self e) =
       message_counter st + Z.of_nat (length (e_sent e)) /\
     e_stop e = s).
Proof.
  split.
  - intros st s m. cbv zeta.
    unfold handle_message, forward_rule, start_phase, send.
    repeat case_match; cbn; repeat split; auto; lia.
  - intros st s. cbv zeta. cbn. repeat split; lia.
Qed.

(** ** The running system *)

Lemma cnt1_pos (l : list Message) m : m ∈ l ->
  (1 <= cnt1 (origin_id m) (direction m) l)%nat.
Proof.
  induction l as [|m0 l IH]; intros Hm; [inversion Hm|].
  cbn [cnt1]. apply elem_of_cons in Hm as [->|Hm].
  - unfold is_of. rewrite Z.eqb_refl. destruct (direction m0); cbn; lia.
  - specialize (IH Hm). lia.
Qed.

Lemma cnt1_le_cnt o d (ib : list (list Message)) r l : ib !! r = Some l ->
  (cnt1 o d l <= cnt o d ib)%nat.
Proof.
  revert r. induction ib as [|l0 ib IH]; intros [|r] Hr; cbn in *;
    try discriminate.
  - injection Hr as ->. lia.
  - specialize (IH r Hr). lia.
Qed.

Lemma cnt_pos (ib : list (list Message)) r l m : ib !! r = Some l -> m ∈ l ->
  (1 <= cnt (origin_id m) (direction m) ib)%nat.
Proof.
  intros Hr Hm. pose proof (cnt1_pos l m Hm).
  pose proof (cnt1_le_cnt (origin_id m) (direction m) ib r l Hr). lia.
Qed.

(** The stop event is never cleared: once set, it stays set in every
    later state. *)
Theorem stop_event_stays_set w w' :
  step w w' -> stop_event w = true -> stop_event w' = true.
Proof.
  intros Hs Ht. inversion Hs; subst; cbn [stop_event].
  - rewrite start_phase_stop. exact Ht.
  - rewrite Ht. unfold handle_message, forward_rule, start_phase, send.
    repeat case_match; cbn; auto.
Qed.

(** A terminated process is never touched again: it handles no message
    and starts no phase, so every later step leaves it as it is. *)
Theorem terminated_frozen ids w w' i p :
  NoDup ids -> (2 <= length ids)%nat -> reachable ids w -> step w w' ->
  procs w !! i = Some p -> running p = false ->
  procs w' !! i = Some p.
Proof.
  intros Hnd Hge Hr Hs Hp Hrun.
  pose proof (inv_reachable ids Hnd Hge w Hr) as Hw.
  inversion Hs as [w0 j q ib' Hq Hst Hd | w0 j q l1 m l2 ib' Hq Hst Hrq Hib Hd];
    subst; cbn [procs].
  - destruct (decide (j = i)) as [->|Hne].
    + rewrite Hq in Hp. injection Hp as <-.
      pose proof (inv_procs _ _ Hw i q Hq) as Hpi.
      destruct (pi_unstarted _ _ _ _ Hpi Hst) as (_ & _ & _ & Hru & _).
      congruence.
    + rewrite list_lookup_insert_ne by exact Hne. exact Hp.
  - destruct (decide (j = i)) as [->|Hne].
    + rewrite Hq in Hp. injection Hp as <-. congruence.
    + rewrite list_lookup_insert_ne by exact Hne. exact Hp.
Qed.

(** The phase of a process never passes the first [k] with [2 ^ k >= N]:
    [2 ^ phase < 2 N] throughout, and [ring_size] is [N]. *)
Theorem phase_bounded ids w i p :
  NoDup ids -> (2 <= length ids)%nat -> reachable ids w ->
  procs w !! i = Some p ->
  0 <= phase p /\ 2 ^ phase p < 2 * Z.of_nat (length ids) /\
  ring_size p = Z.of_nat (length ids).
Proof.
  intros Hnd Hge Hr Hp.
  pose proof (inv_procs _ _ (inv_reachable ids Hnd Hge w Hr) i p Hp) as Hpi.
  pose proof (pi_phase_nonneg _ _ _ _ Hpi) as H0.
  split; [exact H0|]. split; [|exact (pi_size _ _ _ _ Hpi)].
  destruct (Z.eq_dec (phase p) 0) as [E|E].
  - rewrite E. cbn. lia.
  - pose proof (pi_phase_prev _ _ _ _ Hpi ltac:(lia)) as Hprev.
    replace (phase p) with (Z.succ (phase p - 1)) by lia.
    rewrite Z.pow_succ_r by lia. lia.
Qed.

(** Every message waiting in an inbox belongs to a process that is still
    running, carries that process's current phase (no stale message of an
    earlier phase survives), and its direction is one the process has not
    confirmed yet. *)
Theorem pending_message_owner ids w r l m :
  NoDup ids -> (2 <= length ids)%nat -> reachable ids w ->
  inboxes w !! r = Some l -> m ∈ l ->
  exists q pq, procs w !! q = Some pq /\ pid pq = origin_id m /\
    msg_phase m = phase pq /\ running pq = true /\
    flag pq (direction m) = false.
Proof.
  intros Hnd Hge Hr Hl Hm.
  pose proof (inv_reachable ids Hnd Hge w Hr) as Hw.
  destruct (inv_msgs _ _ Hw r l m Hl Hm) as (q & pq & Hq & Hpid & Hph & _).
  exists q, pq. repeat split; auto.
  - pose proof (inv_procs _ _ Hw q pq Hq) as Hpi.
    pose proof (cnt_pos _ r l m Hl Hm) as Hc. rewrite <- Hpid in Hc.
    destruct (running pq) eqn:Hru; [reflexivity|].
    destruct (pi_term _ _ _ _ Hpi Hru) as (Hcl & Hcr & _).
    pose proof (pi_count _ _ _ _ Hpi (direction m)) as Hk.
    destruct (direction m); cbn [flag] in Hk; [rewrite Hcl in Hk | rewrite Hcr in Hk];
      lia.
  - pose proof (inv_procs _ _ Hw q pq Hq) as Hpi.
    pose proof (cnt_pos _ r l m Hl Hm) as Hc. rewrite <- Hpid in Hc.
    pose proof (pi_count _ _ _ _ Hpi (direction m)) as Hk.
    destruct (flag pq (direction m)); [lia | reflexivity].
Qed.

(** Each process has at most one message of its own per direction in the
    inboxes at any time, and none in a direction it has confirmed. *)
Theorem at_most_one_probe ids w i p d :
  NoDup ids -> (2 <= length ids)%nat -> reachable ids w ->
  procs w !! i = Some p ->
  (cnt (pid p) d (inboxes w) <= 1)%nat /\
  (flag p d = true -> cnt (pid p) d (inboxes w) = 0%nat).
Proof.
  intros Hnd Hge Hr Hp.
  pose proof (inv_procs _ _ (inv_reachable ids Hnd Hge w Hr) i p Hp) as Hpi.
  pose proof (pi_count _ _ _ _ Hpi d) as Hk.
  split; [lia|]. intros Hf. rewrite Hf in Hk. lia.
Qed.

(** What an echo or a confirmation certifies: a waiting echo of phase [k]
    comes from a probe that met no larger identifier on its [2 ^ k] hops
    from its origin, and a set flag of a process in phase [k] says the
    same of the [2 ^ k] processes on that side of it. *)
Theorem kill_rule_sound ids w :
  NoDup ids -> (2 <= length ids)%nat -> reachable ids w ->
  (forall r l m, inboxes w !! r = Some l -> m ∈ l -> returning m = true ->
     exists q, ids !! q = Some (origin_id m) /\
       forall (j : nat) x, (1 <= j)%nat -> Z.of_nat j <= 2 ^ msg_phase m ->
         ids !! walk ids (direction m) q j = Some x -> x <= origin_id m) /\
  (forall i p d, procs w !! i = Some p -> flag p d = true ->
     forall (j : nat) x, (1 <= j)%nat -> Z.of_nat j <= 2 ^ phase p ->
       ids !! walk ids d i j = Some x -> x <= pid p).
Proof.
  intros Hnd Hge Hr.
  pose proof (inv_reachable ids Hnd Hge w Hr) as Hw. split.
  - intros r l m Hl Hm Hret.
    destruct (inv_msgs _ _ Hw r l m Hl Hm) as (q & pq & Hq & Hpid & _ & Hok).
    pose proof (pi_pid _ _ _ _ (inv_procs _ _ Hw q pq Hq)) as Hi.
    rewrite Hpid in Hi.
    exists q. split; [exact Hi|].
    unfold msg_ok in Hok. rewrite Hret in Hok. destruct Hok as [_ Hg].
    intros j x Hj Hjk Hx. exact (Hg j x (origin_id m) Hj Hjk Hx Hi).
  - intros i p d Hp Hf j x Hj Hjk Hx.
    pose proof (inv_procs _ _ Hw i p Hp) as Hpi.
    exact (pi_flag_good _ _ _ _ Hpi d Hf j x (pid p) Hj Hjk Hx (pi_pid _ _ _ _ Hpi)).
Qed.

Lemma stop_event_stays_set_witness :
  step late_world after_late /\ stop_event late_world = true /\
  stop_event after_late = true.
Proof.
  assert (Hs : step late_world after_late)
    by (apply (exec_pick_sound _ (PRecv 2 0)); vm_compute; reflexivity).
  assert (Ht : stop_event late_world = true) by (vm_compute; reflexivity).
  split; [exact Hs|]. split; [exact Ht|].
  exact (stop_event_stays_set _ _ Hs Ht).
Defined.

Lemma terminated_frozen_witness :
  NoDup [5; 1; 2] /\ reachable [5; 1; 2] late_world /\
  step late_world after_late /\
  procs late_world !! 0%nat =
    Some (mkProcess 5 2 true (Some 2%nat) (Some 1%nat) true true false 8 3) /\
  procs after_late !! 0%nat =
    Some (mkProcess 5 2 true (Some 2%nat) (Some 1%nat) true true false 8 3).
Proof.
  assert (Hnd : NoDup [5; 1; 2]) by (apply (bool_decide_unpack _); vm_compute; reflexivity).
  assert (Hr : reachable [5; 1; 2] late_world)
    by (apply (exec_picks_sound _ sched_late); vm_compute; reflexivity).
  assert (Hs : step late_world after_late)
    by (apply (exec_pick_sound _ (PRecv 2 0)); vm_compute; reflexivity).
  assert (Hp : procs late_world !! 0%nat =
    Some (mkProcess 5 2 true (Some 2%nat) (Some 1%nat) true true false 8 3))
    by (vm_compute; reflexivity).
  split; [exact Hnd|]. split; [exact Hr|]. split; [exact Hs|]. split; [exact Hp|].
  exact (terminated_frozen [5; 1; 2] late_world after_late 0%nat _ Hnd
           ltac:(simpl; lia) Hr Hs Hp eq_refl).
Defined.

Lemma phase_bounded_witness :
  NoDup ids_5 /\ reachable ids_5 final_5 /\
  procs final_5 !! 3%nat =
    Some (mkProcess 9 3 true (Some 2%nat) (Some 4%nat) true true false 10 5) /\
  2 ^ 3 < 2 * Z.of_nat (length ids_5).
Proof.
  assert (Hnd : NoDup ids_5) by (apply (bool_decide_unpack _); vm_compute; reflexivity).
  assert (Hr : reachable ids_5 final_5)
    by (apply (exec_sound _ (run_sched ids_5 400)); vm_compute; reflexivity).
  assert (Hp : procs final_5 !! 3%nat =
    Some (mkProcess 9 3 true (Some 2%nat) (Some 4%nat) true true false 10 5))
    by (vm_compute; reflexivity).
  split; [exact Hnd|]. split; [exact Hr|]. split; [exact Hp|].
  exact (proj1 (proj2 (phase_bounded ids_5 final_5 3%nat _ Hnd ltac:(simpl; lia) Hr Hp))).
Defined.

Lemma pending_message_owner_witness :
  NoDup [5; 1; 2] /\ reachable [5; 1; 2] late_world /\
  inboxes late_world !! 2%nat = Some [mkMessage 2 LEFT 0 0 true] /\
  exists q pq, procs late_world !! q = Some pq /\ pid pq = 2 /\
    msg_phase (mkMessage 2 LEFT 0 0 true) = phase pq /\ running pq = true /\
    flag pq LEFT = false.
Proof.
  assert (Hnd : NoDup [5; 1; 2]) by (apply (bool_decide_unpack _); vm_compute; reflexivity).
  assert (Hr : reachable [5; 1; 2] late_world)
    by (apply (exec_picks_sound _ sched_late); vm_compute; reflexivity).
  assert (Hl : inboxes late_world !! 2%nat = Some [mkMessage 2 LEFT 0 0 true])
    by (vm_compute; reflexivity).
  split; [exact Hnd|]. split; [exact Hr|]. split; [exact Hl|].
  exact (pending_message_owner [5; 1; 2] late_world 2%nat _ _ Hnd
           ltac:(simpl; lia) Hr Hl ltac:(apply elem_of_cons; left; reflexivity)).
Defined.

Lemma at_most_one_probe_witness :
  NoDup [5; 1; 2] /\ reachable [5; 1; 2] late_world /\
  procs late_world !! 2%nat =
    Some (mkProcess 2 0 true (Some 1%nat) (Some 0%nat) false false true 9 3) /\
  cnt 2 LEFT (inboxes late_world) = 1%nat /\
  (cnt 2 LEFT (inboxes late_world) <= 1)%nat.
Proof.
  assert (Hnd : NoDup [5; 1; 2]) by (apply (bool_decide_unpack _); vm_compute; reflexivity).
  assert (Hr : reachable [5; 1; 2] late_world)
    by (apply (exec_picks_sound _ sched_late); vm_compute; reflexivity).
  assert (Hp : procs late_world !! 2%nat =
    Some (mkProcess 2 0 true (Some 1%nat) (Some 0%nat) false false true 9 3))
    by (vm_compute; reflexivity).
  split; [exact Hnd|]. split; [exact Hr|]. split; [exact Hp|].
  split; [vm_compute; reflexivity|].
  exact (proj1 (at_most_one_probe [5; 1; 2] late_world 2%nat _ LEFT Hnd
                  ltac:(simpl; lia) Hr Hp)).
Defined.

Lemma kill_rule_sound_witness :
  NoDup [5; 1; 2] /\ reachable [5; 1; 2] late_world /\
  inboxes late_world !! 2%nat = Some [mkMessage 2 LEFT 0 0 true] /\
  exists q, [5; 1; 2] !! q = Some 2 /\
    forall (j : nat) x, (1 <= j)%nat -> Z.of_nat j <= 2 ^ 0 ->
      [5; 1; 2] !! walk [5; 1; 2] LEFT q j = Some x -> x <= 2.
Proof.
  assert (Hnd : NoDup [5; 1; 2]) by (apply (bool_decide_unpack _); vm_compute; reflexivity).
  assert (Hr : reachable [5; 1; 2] late_world)
    by (apply (exec_picks_sound _ sched_late); vm_compute; reflexivity).
  assert (Hl : inboxes late_world !! 2%nat = Some [mkMessage 2 LEFT 0 0 true])
    by (vm_compute; reflexivity).
  split; [exact Hnd|]. split; [exact Hr|]. split; [exact Hl|].
  exact (proj1 (kill_rule_sound [5; 1; 2] late_world Hnd ltac:(simpl; lia) Hr)
           2%nat _ _ Hl ltac:(apply elem_of_cons; left; reflexivity) eq_refl).
Defined.

(** ** send and main's message total *)

Lemma handle_counter st s m :
  message_counter (e_self (handle_message st s m)) =
    message_counter st + Z.of_nat (length (e_sent (handle_message st s m))) /\
  left_queue (e_self (handle_message st s m)) = left_queue st /\
  right_queue (e_self (handle_message st s m)) = right_queue st.
Proof.
  unfold handle_message, forward_rule, start_phase, send.
  repeat case_match; cbn; repeat split; auto; lia.
Qed.

Lemma pending_cons (l : list Message) ib :
  pending (l :: ib) = (length l + pending ib)%nat.
Proof. reflexivity. Qed.

Lemma pending_alter_put (ib : list (list Message)) t x : (t < length ib)%nat ->
  pending (alter (put x) t ib) = S (pending ib).
Proof.
  revert t. induction ib as [|l ib IH]; intros [|t] Ht; cbn -[pending] in *;
    try lia; rewrite !pending_cons.
  - unfold put. rewrite length_app. cbn. lia.
  - rewrite IH by lia. lia.
Qed.

Lemma deliver_pending st out (ib ib' : list (list Message)) :
  (forall c t, target st c = Some t -> (t < length ib)%nat) ->
  deliver st out ib = Some ib' ->
  pending ib' = (pending ib + length out)%nat /\ length ib' = length ib.
Proof.
  revert ib. induction out as [|[c m] out IH]; intros ib Ht Hd; cbn in Hd.
  - injection Hd as <-. cbn. lia.
  - destruct (target st c) as [t|] eqn:Etc; [|discriminate].
    assert (Hlt := Ht c t Etc).
    destruct (IH (alter (put m) t ib)) as [H1 H2]; [|exact Hd|].
    + intros c' t' H'. rewrite length_alter. exact (Ht c' t' H').
    + rewrite length_alter in H2. rewrite pending_alter_put in H1 by exact Hlt.
      cbn. lia.
Qed.

Lemma pending_insert (ib : list (list Message)) i l l' : ib !! i = Some l ->
  (pending (<[i := l']> ib) + length l = pending ib + length l')%nat.
Proof.
  revert i. induction ib as [|l0 ib IH]; intros [|i] H; cbn in H; try discriminate.
  - injection H as ->. change (<[0%nat := l']> (l :: ib)) with (l' :: ib).
    rewrite !pending_cons. lia.
  - change (<[S i := l']> (l0 :: ib)) with (l0 :: <[i := l']> ib).
    rewrite !pending_cons. specialize (IH i H). lia.
Qed.

Lemma total_insert (ps : list Process) i p p' : ps !! i = Some p ->
  total_messages (<[i := p']> ps) + message_counter p =
    total_messages ps + message_counter p'.
Proof.
  revert i. induction ps as [|p0 ps IH]; intros [|i] H; cbn in H; try discriminate.
  - injection H as ->. change (<[0%nat := p']> (p :: ps)) with (p' :: ps).
    unfold total_messages. cbn [foldr]. lia.
  - change (<[S i := p']> (p0 :: ps)) with (p0 :: <[i := p']> ps).
    specialize (IH i H). unfold total_messages in *. cbn [foldr]. lia.
Qed.

Lemma total_nonneg (ps : list Process) :
  (forall i p, ps !! i = Some p -> 0 <= message_counter p) ->
  0 <= total_messages ps.
Proof.
  unfold total_messages. induction ps as [|p ps IH]; intros H; cbn; [lia|].
  pose proof (H 0%nat p eq_refl).
  assert (0 <= foldr (fun p acc => message_counter p + acc) 0 ps).
  { apply IH. intros i q Hq. exact (H (S i) q Hq). }
  lia.
Qed.

Lemma queues_in_range ids w i p : (2 <= length ids)%nat -> inv ids w ->
  procs w !! i = Some p ->
  forall st c t, left_queue st = left_queue p -> right_queue st = right_queue p ->
  target st c = Some t -> (t < length (inboxes w))%nat.
Proof.
  intros Hge Hw Hp st c t Hl Hr Ht.
  pose proof (inv_procs _ _ Hw i p Hp) as Hpi.
  pose proof (lookup_lt_Some _ _ _ Hp) as Hi.
  rewrite (inv_len_procs _ _ Hw) in Hi. rewrite (inv_len_inboxes _ _ Hw).
  destruct c; cbn in Ht.
  - rewrite Hl, (pi_left _ _ _ _ Hpi) in Ht. injection Ht as <-.
    exact (nbr_lt ids Hge LEFT i Hi).
  - rewrite Hr, (pi_right _ _ _ _ Hpi) in Ht. injection Ht as <-.
    exact (nbr_lt ids Hge RIGHT i Hi).
Qed.

Lemma start_conserves ids w i p ib' : (2 <= length ids)%nat -> inv ids w ->
  procs w !! i = Some p ->
  deliver (e_self (start_phase (mkEffect p (stop_event w) [])))
    (e_sent (start_phase (mkEffect p (stop_event w) []))) (inboxes w) = Some ib' ->
  pending ib' = (pending (inboxes w) + 2)%nat /\
  total_messages (<[i := e_self (start_phase (mkEffect p (stop_event w) []))]> (procs w))
    = total_messages (procs w) + 2.
Proof.
  intros Hge Hw Hp Hd.
  destruct (deliver_pending _ _ _ _
    (fun c t => queues_in_range ids w i p Hge Hw Hp
       (e_self (start_phase (mkEffect p (stop_event w) []))) c t eq_refl eq_refl) Hd) as [H1 _].
  split; [exact H1|].
  pose proof (total_insert (procs w) i p
    (e_self (start_phase (mkEffect p (stop_event w) []))) Hp) as H.
  assert (Hc : message_counter (e_self (start_phase (mkEffect p (stop_event w) [])))
               = message_counter p + 2) by (cbn; lia).
  lia.
Qed.

Lemma recv_conserves ids w i p l1 m l2 ib' : (2 <= length ids)%nat -> inv ids w ->
  procs w !! i = Some p -> inboxes w !! i = Some (l1 ++ m :: l2) ->
  deliver (e_self (handle_message p (stop_event w) m))
    (e_sent (handle_message p (stop_event w) m)) (<[i := l1 ++ l2]> (inboxes w))
    = Some ib' ->
  Z.of_nat (pending ib') + 1 =
    Z.of_nat (pending (inboxes w)) +
    (total_messages (<[i := e_self (handle_message p (stop_event w) m)]> (procs w))
       - total_messages (procs w)).
Proof.
  intros Hge Hw Hp Hi Hd.
  destruct (handle_counter p (stop_event w) m) as (Hc & Hl & Hr).
  assert (Hq : forall c t, target (e_self (handle_message p (stop_event w) m)) c = Some t ->
            (t < length (<[i := l1 ++ l2]> (inboxes w)))%nat).
  { intros c t Ht. rewrite length_insert.
    exact (queues_in_range ids w i p Hge Hw Hp _ c t Hl Hr Ht). }
  destruct (deliver_pending _ _ _ _ Hq Hd) as [H1 _].
  pose proof (pending_insert (inboxes w) i _ (l1 ++ l2) Hi) as H2.
  rewrite !length_app in H2. cbn [length] in H2.
  pose proof (total_insert (procs w) i p
    (e_self (handle_message p (stop_event w) m)) Hp) as H3.
  lia.
Qed.

(** Every [send] puts exactly one message into exactly one inbox and
    counts it: the initial [start_phase] adds two messages to the inboxes
    and two to [main]'s total, handling a message takes it out of the
    inboxes and adds as many to the inboxes as to the total; so at any time
    the total [main] prints is at least the number of messages still
    waiting. *)
Theorem messages_counted ids w :
  NoDup ids -> (2 <= length ids)%nat -> reachable ids w ->
  (forall i p ib', procs w !! i = Some p -> started w !! i = Some false ->
     deliver (e_self (start_phase (mkEffect p (stop_event w) [])))
       (e_sent (start_phase (mkEffect p (stop_event w) []))) (inboxes w)
       = Some ib' ->
     pending ib' = (pending (inboxes w) + 2)%nat /\
     total_messages
       (<[i := e_self (start_phase (mkEffect p (stop_event w) []))]> (procs w))
       = total_messages (procs w) + 2) /\
  (forall i p l1 m l2 ib', procs w !! i = Some p ->
     inboxes w !! i = Some (l1 ++ m :: l2) ->
     deliver (e_self (handle_message p (stop_event w) m))
       (e_sent (handle_message p (stop_event w) m))
       (<[i := l1 ++ l2]> (inboxes w)) = Some ib' ->
     Z.of_nat (pending ib') + 1 =
       Z.of_nat (pending (inboxes w)) +
       (total_messages
          (<[i := e_self (handle_message p (stop_event w) m)]> (procs w))
        - total_messages (procs w))) /\
  Z.of_nat (pending (inboxes w)) <= total_messages (procs w).
Proof.
  intros Hnd Hge Hr.
  pose proof (inv_reachable ids Hnd Hge w Hr) as Hw.
  split; [intros i p ib' Hp _ Hd; exact (start_conserves ids w i p ib' Hge Hw Hp Hd)|].
  split; [intros i p l1 m l2 ib' Hp Hi Hd;
          exact (recv_conserves ids w i p l1 m l2 ib' Hge Hw Hp Hi Hd)|].
  clear Hw. unfold reachable in Hr. pattern w. revert w Hr.
  apply rtc_ind_r.
  - assert (H : pending (inboxes (init_world ids)) = 0%nat).
    { cbn. generalize (length ids). intros n. induction n; cbn; auto. }
    rewrite H. apply total_nonneg. intros i p Hp. cbn in Hp.
    unfold connect_ring in Hp. rewrite list_lookup_imap, list_lookup_fmap in Hp.
    destruct (ids !! i); cbn in Hp; [|discriminate].
    injection Hp as <-. cbn. lia.
  - intros w2 w3 Hr2 Hs IH.
    pose proof (inv_reachable ids Hnd Hge w2 Hr2) as Hw.
    inversion Hs as [w0 j q ib' Hq Hst Hd | w0 j q l1 m l2 ib' Hq Hst Hrq Hib Hd];
      subst; cbn [procs inboxes].
    + destruct (start_conserves ids w2 j q ib' Hge Hw Hq Hd) as [H1 H2]. lia.
    + pose proof (recv_conserves ids w2 j q l1 m l2 ib' Hge Hw Hq Hib Hd). lia.
Qed.

Lemma messages_counted_witness :
  NoDup [5; 1] /\ reachable [5; 1] mid_5_1 /\
  pending (inboxes mid_5_1) = 2%nat /\
  Z.of_nat (pending (inboxes mid_5_1)) <= total_messages (procs mid_5_1).
Proof.
  assert (Hnd : NoDup [5; 1]) by (apply (bool_decide_unpack _); vm_compute; reflexivity).
  assert (Hr : reachable [5; 1] mid_5_1)
    by (apply (exec_sound _ (take 10 sched_5_1)); vm_compute; reflexivity).
  split; [exact Hnd|]. split; [exact Hr|]. split; [vm_compute; reflexivity|].
  exact (proj2 (proj2 (messages_counted [5; 1] mid_5_1 Hnd ltac:(simpl; lia) Hr))).
Defined.

(** ** main: the manual entry of identifiers *)

Lemma add_id_spec ids x :
  (NoDup ids -> NoDup (add_id ids x)) /\
  (Forall (fun y => 0 < y) ids -> Forall (fun y => 0 < y) (add_id ids x)) /\
  (length (add_id ids x) <= S (length ids))%nat /\
  (forall y, y ∈ add_id ids x -> y ∈ ids \/ y = x).
Proof.
  unfold add_id. destruct (Z.leb_spec x 0); [repeat split; auto|].
  destruct (existsb (Z.eqb x) ids) eqn:E; [repeat split; auto|].
  split; [|split; [|split]].
  - intros Hnd. apply NoDup_app. split; [exact Hnd|]. split; [|apply NoDup_singleton].
    intros y Hy Hy'. apply list_elem_of_singleton in Hy'. subst y.
    assert (existsb (Z.eqb x) ids = true) as E'.
    { apply existsb_exists. exists x. split; [apply list_elem_of_In; exact Hy|].
      apply Z.eqb_refl. }
    congruence.
  - intros Hpos. apply Forall_app. split; [exact Hpos|]. constructor; [lia|constructor].
  - rewrite length_app. cbn. lia.
  - intros y Hy. apply elem_of_app in Hy as [Hy|Hy]; [auto|].
    apply list_elem_of_singleton in Hy. auto.
Qed.

Lemma read_ids_spec n ids0 inputs :
  NoDup ids0 -> Forall (fun y => 0 < y) ids0 -> (length ids0 <= n)%nat ->
  NoDup (read_ids n ids0 inputs) /\
  Forall (fun y => 0 < y) (read_ids n ids0 inputs) /\
  (length (read_ids n ids0 inputs) <= n)%nat /\
  (forall y, y ∈ read_ids n ids0 inputs -> y ∈ ids0 \/ Some y ∈ inputs).
Proof.
  revert ids0. induction inputs as [|x rest IH]; intros ids0 Hnd Hpos Hlen;
    cbn [read_ids].
  - repeat split; auto.
  - destruct (Nat.ltb_spec (length ids0) n) as [Hlt|Hge];
      [|repeat split; auto].
    destruct x as [v|].
    + destruct (add_id_spec ids0 v) as (A1 & A2 & A3 & A4).
      destruct (IH (add_id ids0 v) (A1 Hnd) (A2 Hpos) ltac:(lia))
        as (B1 & B2 & B3 & B4).
      split; [exact B1|]. split; [exact B2|]. split; [exact B3|].
      intros y Hy. destruct (B4 y Hy) as [Hy'|Hy'].
      * destruct (A4 y Hy') as [H| ->]; [left; exact H|].
        right. apply elem_of_cons. left. reflexivity.
      * right. apply elem_of_cons. right. exact Hy'.
    + destruct (IH ids0 Hnd Hpos Hlen) as (B1 & B2 & B3 & B4).
      split; [exact B1|]. split; [exact B2|]. split; [exact B3|].
      intros y Hy. destruct (B4 y Hy) as [H|H]; [left; exact H|].
      right. apply elem_of_cons. right. exact H.
Qed.

(** [main]'s manual entry loop, whatever is typed, builds a list of at
    most N identifiers, all positive, pairwise distinct and each one typed
    by the user; once it holds N >= 2 of them, the election [main] starts
    on it satisfies the precondition of the safety argument, so in every
    run a terminated process holds the largest identifier typed. *)
Theorem manual_ids_sound (n : nat) (inputs : list (option Z)) :
  let ids := read_ids n [] inputs in
  NoDup ids /\ Forall (fun y => 0 < y) ids /\ (length ids <= n)%nat /\
  (forall y, y ∈ ids -> Some y ∈ inputs) /\
  ((2 <= n)%nat -> length ids = n ->
   forall w, reachable ids w ->
   forall i p, procs w !! i = Some p -> running p = false ->
   forall x, x ∈ ids -> x <= pid p).
Proof.
  cbv zeta.
  destruct (read_ids_spec n [] inputs (NoDup_nil_2) (Forall_nil_2 _) ltac:(cbn; lia))
    as (B1 & B2 & B3 & B4).
  split; [exact B1|]. split; [exact B2|]. split; [exact B3|]. split.
  - intros y Hy. destruct (B4 y Hy) as [H|H]; [inversion H | exact H].
  - intros Hn Hlen w Hr i p Hp Hrun.
    assert (Hge : (2 <= length (read_ids n [] inputs))%nat) by lia.
    exact (inv_max _ Hge w i p (inv_reachable _ B1 Hge w Hr) Hp Hrun).
Qed.

Lemma manual_ids_sound_witness :
  read_ids 3 [] [Some 4; Some 0; None; Some 4; Some 9; Some 2; Some 7]
    = [4; 9; 2] /\
  NoDup (read_ids 3 [] [Some 4; Some 0; None; Some 4; Some 9; Some 2; Some 7]).
Proof.
  split; [vm_compute; reflexivity|].
  exact (proj1 (manual_ids_sound 3 [Some 4; Some 0; None; Some 4; Some 9; Some 2; Some 7])).
Defined.

(** ** How many messages can be in flight *)











